(** * Chat-session state of the legal-assistant client

    A shallow embedding of [AskQuestionPage] (the React component holding the
    chat threads, the active-thread pointer and the send / upload handlers)
    and of the properties its specification states about it.

    - JavaScript strings are sequences of UTF-16 code units ([list N]);
      [length], [substring], [trim] and [split] count code units.
    - React state is the record [View].  A handler is a closure over the
      [View] of the render that created it; its [setX] calls act on the
      queued state.  [setChats] is always called with an updater function,
      the other setters with a value.
    - [localStorage] is a finite map from keys to strings, written by the two
      [useEffect] bodies after a commit whose dependency changed. *)

From Stdlib Require Import ZArith NArith String Ascii.
From stdpp Require Import base decidable option list gmap.

Local Open Scope Z_scope.
Local Open Scope list_scope.

(** ** JavaScript strings *)

Abbreviation jsstring := (list N).

(** An ASCII literal as a JavaScript string. *)
Definition js (s : string) : jsstring :=
  N_of_ascii <$> list_ascii_of_string s.

(** ECMAScript [WhiteSpace] and [LineTerminator] code units: what [\s]
    matches and what [String.prototype.trim] strips. *)
Definition is_space (c : N) : bool :=
  ((9 <=? c) && (c <=? 13) || (c =? 32) || (c =? 160) || (c =? 5760)
   || (8192 <=? c) && (c <=? 8202) || (c =? 8232) || (c =? 8233)
   || (c =? 8239) || (c =? 8287) || (c =? 12288) || (c =? 65279))%N.

Fixpoint trimStart (s : jsstring) : jsstring :=
  match s with
  | [] => []
  | c :: t => if is_space c then trimStart t else s
  end.

Definition trimEnd (s : jsstring) : jsstring := rev (trimStart (rev s)).

(** [s.trim()] *)
Definition trim (s : jsstring) : jsstring := trimEnd (trimStart s).

(** [s.split(/\s+/)]: [cur] is the piece being read, [in_sep] tells that the
    previous code unit belonged to a separator (a maximal whitespace run is
    one separator).  A separator at either end leaves an empty piece there,
    and the empty string splits to one empty piece. *)
Fixpoint split_go (in_sep : bool) (cur : jsstring) (s : jsstring)
  : list jsstring :=
  match s with
  | [] => [cur]
  | c :: t =>
      if is_space c
      then if in_sep then split_go true [] t else cur :: split_go true [] t
      else split_go false (cur ++ [c]) t
  end.

Definition split_ws (s : jsstring) : list jsstring := split_go false [] s.

(** [words.join(sep)] *)
Fixpoint join (sep : jsstring) (words : list jsstring) : jsstring :=
  match words with
  | [] => []
  | [w] => w
  | w :: rest => w ++ sep ++ join sep rest
  end.

(** [s.substring(0, n)] *)
Definition substring0 (n : nat) (s : jsstring) : jsstring := take n s.

(** Truthiness of a string: only the empty string is falsy. *)
Definition truthy_str (s : jsstring) : bool :=
  match s with [] => false | _ => true end.

(** Truthiness of a [string | null] value. *)
Definition truthy (v : option jsstring) : bool :=
  match v with Some s => truthy_str s | None => false end.

(** [v || null] on a [string | null | undefined] value. *)
Definition or_null (v : option jsstring) : option jsstring :=
  if truthy v then v else None.

Definition NEW_CHAT : jsstring := js "New Chat".
Definition ELLIPSIS : jsstring := js "...".

(** [generateChatTitle] *)
Definition generateChatTitle (content : jsstring) : jsstring :=
  if negb (truthy_str content) then NEW_CHAT
  else
    let words := split_ws (trim content) in
    if (length words <=? 3)%nat then trim content
    else
      let title := join (js " ") (take 4 words) in
      if (30 <? length title)%nat
      then substring0 30 title ++ ELLIPSIS
      else title.

Definition DOT : N := 46.
Definition SLASH : N := 47.

(** The tail of a match of [[^/.]+$]: one or more code units up to the end
    of the input, none of them a slash or a dot. *)
Definition ext_tail (t : jsstring) : bool :=
  truthy_str t && forallb (λ c, negb ((c =? SLASH) || (c =? DOT))%N) t.

(** [name.replace(/\.[^/.]+$/, "")]: the leftmost position where the
    pattern matches is cut off together with everything after it (the match
    runs to the end of the input); without a match the name is unchanged. *)
Fixpoint stripExtension (name : jsstring) : jsstring :=
  match name with
  | [] => []
  | c :: t => if (c =? DOT)%N && ext_tail t then [] else c :: stripExtension t
  end.

(** ** Data model *)

(** A message's [role]; the component only ever passes these two. *)
Inductive Role := user | assistant.

Record Message := { role : Role; content : jsstring }.

Record Chat := {
  id : jsstring;
  title : jsstring;
  messages : list Message;
  createdAt : Z
}.

Inductive UploadStatus := idle | uploading | success | error.

(** The only property of a selected file the component reads. *)
Record File := { name : jsstring }.

(** The [useState] cells of [AskQuestionPage] that the handlers below read
    or write. *)
Record View := {
  input : jsstring;
  chats : list Chat;
  activeChatId : option jsstring;
  showFeatures : bool;
  isLoading : bool;
  uploadStatus : UploadStatus;
  uploadedFileName : jsstring;
  docGenMode : bool;
  docType : jsstring
}.

#[global] Instance Role_eq_dec : EqDecision Role.
Proof. solve_decision. Defined.
#[global] Instance Message_eq_dec : EqDecision Message.
Proof. solve_decision. Defined.
#[global] Instance Chat_eq_dec : EqDecision Chat.
Proof. solve_decision. Defined.

(** [{ ...chat, messages: ms }] and [{ ...chat, title: t }] *)
Definition with_messages (chat : Chat) (ms : list Message) : Chat :=
  {| id := id chat; title := title chat; messages := ms;
     createdAt := createdAt chat |}.

Definition with_title (chat : Chat) (t : jsstring) : Chat :=
  {| id := id chat; title := t; messages := messages chat;
     createdAt := createdAt chat |}.

(** A callback handed to [setTimeout].  A retry keeps the render whose
    handler scheduled it: [() => handleSend()] calls the [handleSend] of
    that render, with that render's [input] and [activeChatId]. *)
Inductive Timer :=
  | RetrySend (r : View)
  | RetryFileChange (r : View) (files : list File)
  | ResetUploadStatus.

(** The component between two events: the state of the last render (what
    the current handlers close over), the state with the queued updates
    applied, the pending timers with their delays, and the browser store. *)
Record Runtime := {
  rendered : View;
  pending : View;
  timers : list (Timer * Z);
  localStorage : gmap (list N) (list N)
}.

(** How a promise settles. *)
Inductive Outcome := Resolved (v : jsstring) | Rejected (e : jsstring).

(** The API client of [../api]: each call settles one way or the other. *)
Class Api := {
  sendChatMessage : jsstring → Outcome;
  generateDocument : jsstring → option jsstring → Outcome;
  uploadDocument : File → Outcome;
  textToSpeech : jsstring → Outcome
}.

(** [JSON.stringify] and [JSON.parse] at the type of the thread list. *)
Class JsonCodec := {
  JSON_stringify : list Chat → jsstring;
  JSON_parse : jsstring → list Chat
}.

(** ** Handlers: state over [Runtime] with JavaScript exceptions *)

Inductive Completion (A : Type) :=
  | Normal (a : A)
  | Throw (e : jsstring).
Arguments Normal {A} a.
Arguments Throw {A} e.

Definition Handler (A : Type) : Type := Runtime → Completion A * Runtime.

#[global] Instance Handler_ret : MRet Handler :=
  λ A a rt, (Normal a, rt).

#[global] Instance Handler_bind : MBind Handler :=
  λ A B k m rt,
    match m rt with
    | (Normal a, rt') => k a rt'
    | (Throw e, rt') => (Throw e, rt')
    end.

(** [try { body } catch (e) { handler e }] *)
Definition try_catch {A} (body : Handler A) (handler : jsstring → Handler A)
  : Handler A :=
  λ rt,
    match body rt with
    | (Normal a, rt') => (Normal a, rt')
    | (Throw e, rt') => handler e rt'
    end.

(** A state update on the queued state. *)
Definition update (f : View → View) : Handler () :=
  λ rt, (Normal (),
         {| rendered := rendered rt; pending := f (pending rt);
            timers := timers rt; localStorage := localStorage rt |}).

Definition setInput (v : jsstring) : Handler () :=
  update (λ s, {| input := v; chats := chats s;
    activeChatId := activeChatId s; showFeatures := showFeatures s;
    isLoading := isLoading s; uploadStatus := uploadStatus s;
    uploadedFileName := uploadedFileName s; docGenMode := docGenMode s;
    docType := docType s |}).

(** [setChats(prev => f(prev))] *)
Definition setChats (f : list Chat → list Chat) : Handler () :=
  update (λ s, {| input := input s; chats := f (chats s);
    activeChatId := activeChatId s; showFeatures := showFeatures s;
    isLoading := isLoading s; uploadStatus := uploadStatus s;
    uploadedFileName := uploadedFileName s; docGenMode := docGenMode s;
    docType := docType s |}).

Definition setActiveChatId (v : option jsstring) : Handler () :=
  update (λ s, {| input := input s; chats := chats s;
    activeChatId := v; showFeatures := showFeatures s;
    isLoading := isLoading s; uploadStatus := uploadStatus s;
    uploadedFileName := uploadedFileName s; docGenMode := docGenMode s;
    docType := docType s |}).

Definition setShowFeatures (v : bool) : Handler () :=
  update (λ s, {| input := input s; chats := chats s;
    activeChatId := activeChatId s; showFeatures := v;
    isLoading := isLoading s; uploadStatus := uploadStatus s;
    uploadedFileName := uploadedFileName s; docGenMode := docGenMode s;
    docType := docType s |}).

Definition setIsLoading (v : bool) : Handler () :=
  update (λ s, {| input := input s; chats := chats s;
    activeChatId := activeChatId s; showFeatures := showFeatures s;
    isLoading := v; uploadStatus := uploadStatus s;
    uploadedFileName := uploadedFileName s; docGenMode := docGenMode s;
    docType := docType s |}).

Definition setUploadStatus (v : UploadStatus) : Handler () :=
  update (λ s, {| input := input s; chats := chats s;
    activeChatId := activeChatId s; showFeatures := showFeatures s;
    isLoading := isLoading s; uploadStatus := v;
    uploadedFileName := uploadedFileName s; docGenMode := docGenMode s;
    docType := docType s |}).

Definition setUploadedFileName (v : jsstring) : Handler () :=
  update (λ s, {| input := input s; chats := chats s;
    activeChatId := activeChatId s; showFeatures := showFeatures s;
    isLoading := isLoading s; uploadStatus := uploadStatus s;
    uploadedFileName := v; docGenMode := docGenMode s;
    docType := docType s |}).

(** [setTimeout(callback, delay)] *)
Definition setTimeout (callback : Timer) (delay : Z) : Handler () :=
  λ rt, (Normal (),
         {| rendered := rendered rt; pending := pending rt;
            timers := timers rt ++ [(callback, delay)];
            localStorage := localStorage rt |}).

(** The fixed texts appended when a call to the backend fails; both start
    with the code unit U+274C. *)
Definition SEND_ERROR : jsstring :=
  10060%N :: js " Error contacting server. Please check if the backend is running.".
Definition UPLOAD_ERROR : jsstring :=
  10060%N :: js " Error uploading document. Please check if the backend is running.".

Definition KEY_chats : jsstring := js "chats".
Definition KEY_activeChatId : jsstring := js "activeChatId".

Section Component.
Context {api : Api} {codec : JsonCodec}.

(** *** Persistence effects *)

(** [useEffect(() => localStorage.setItem('chats', JSON.stringify(chats)), [chats])] *)
Definition persistChats (s : View) (store : gmap (list N) (list N))
  : gmap (list N) (list N) :=
  <[KEY_chats := JSON_stringify (chats s)]> store.

(** [useEffect(() => { if (activeChatId) localStorage.setItem('activeChatId', activeChatId) }, [activeChatId])] *)
Definition persistActiveChatId (s : View) (store : gmap (list N) (list N))
  : gmap (list N) (list N) :=
  match activeChatId s with
  | Some a => if truthy_str a then <[KEY_activeChatId := a]> store else store
  | None => store
  end.

(** A commit: the queued state becomes the rendered one and each effect
    whose dependency changed runs.  React compares [chats] by identity;
    every [setChats] of the component builds a new array, and writing the
    text of an unchanged list again leaves a store that holds it as it
    is, so the comparison is made on the contents. *)
Definition commit (rt : Runtime) : Runtime :=
  let old := rendered rt in
  let new := pending rt in
  let store1 :=
    if decide (chats old = chats new) then localStorage rt
    else persistChats new (localStorage rt) in
  let store2 :=
    if decide (activeChatId old = activeChatId new) then store1
    else persistActiveChatId new store1 in
  {| rendered := new; pending := new; timers := timers rt;
     localStorage := store2 |}.

(** The lazy initial values of the [useState] cells. *)
Definition initialChats (store : gmap (list N) (list N)) : list Chat :=
  match store !! KEY_chats with
  | Some saved => if truthy_str saved then JSON_parse saved else []
  | None => []
  end.

Definition initialActiveChatId (store : gmap (list N) (list N))
  : option jsstring :=
  or_null (store !! KEY_activeChatId).

Definition initialView (store : gmap (list N) (list N)) : View :=
  {| input := []; chats := initialChats store;
     activeChatId := initialActiveChatId store; showFeatures := true;
     isLoading := false; uploadStatus := idle; uploadedFileName := [];
     docGenMode := false; docType := [] |}.

(** The first render: state is read from the store, then both effects
    run once. *)
Definition mount (store : gmap (list N) (list N)) : Runtime :=
  let v := initialView store in
  {| rendered := v; pending := v; timers := [];
     localStorage := persistActiveChatId v (persistChats v store) |}.

(** *** The handlers of [AskQuestionPage]

    Each takes the render [r] it closes over, where it reads one. *)

Definition getActiveChat (r : View) : option Chat :=
  find (λ c, bool_decide (Some (id c) = activeChatId r)) (chats r).

Definition appendMessage (r : View) (role : Role) (content : jsstring)
  : Handler () :=
  if negb (truthy (activeChatId r)) then mret ()
  else
    setChats (map (λ chat,
      if bool_decide (Some (id chat) = activeChatId r)
      then with_messages chat
             (messages chat ++ [{| role := role; content := content |}])
      else chat)).

(** [newId] is the value of [uuidv4()], [now] that of [Date.now()]. *)
Definition handleNewChat (newId : jsstring) (now : Z) : Handler () :=
  let newChat :=
    {| id := newId; title := NEW_CHAT; messages := []; createdAt := now |} in
  setChats (λ prev, newChat :: prev) ;;
  setActiveChatId (Some newId) ;;
  setInput [] ;;
  setShowFeatures true.

Definition updateChatTitle (chatId : option jsstring) (newTitle : jsstring)
  : Handler () :=
  setChats (map (λ chat,
    if bool_decide (Some (id chat) = chatId)
    then with_title chat newTitle else chat)).

Definition handleSelectChat (cid : jsstring) : Handler () :=
  setActiveChatId (Some cid) ;;
  setShowFeatures false.

Definition handleDeleteChat (r : View) (cid : jsstring) : Handler () :=
  setChats (filter (λ chat, id chat ≠ cid)) ;;
  if bool_decide (activeChatId r = Some cid) then
    let remaining := filter (λ chat, id chat ≠ cid) (chats r) in
    setActiveChatId (or_null (id <$> head remaining)) ;;
    setShowFeatures true
  else mret ().

(** [await promise]: the handler is suspended, the queued updates are
    committed, and the handler resumes with the value or the exception. *)
Definition await (promise : Outcome) : Handler jsstring :=
  λ rt,
    (match promise with Resolved v => Normal v | Rejected e => Throw e end,
     commit rt).

Definition handleSend (r : View) (newId : jsstring) (now : Z) : Handler () :=
  if truthy_str (trim (input r)) then
    if negb (truthy (activeChatId r)) then
      handleNewChat newId now ;;
      setTimeout (RetrySend r) 100
    else
      appendMessage r user (input r) ;;
      let pendingInput := input r in
      setInput [] ;;
      setShowFeatures false ;;
      setIsLoading true ;;
      try_catch
        (aiResponse ←
           (if docGenMode r
            then await (generateDocument pendingInput
                          (or_null (Some (docType r))))
            else await (sendChatMessage pendingInput));
         appendMessage r assistant aiResponse ;;
         match getActiveChat r with
         | Some activeChat =>
             if bool_decide (title activeChat = NEW_CHAT)
             then updateChatTitle (activeChatId r)
                    (generateChatTitle pendingInput)
             else mret ()
         | None => mret ()
         end ;;
         try_catch (await (textToSpeech aiResponse) ;; mret ())
                   (λ _, mret ()))
        (λ _, appendMessage r assistant SEND_ERROR) ;;
      setIsLoading false
  else mret ().

Definition handleFileChange (r : View) (files : list File)
    (newId : jsstring) (now : Z) : Handler () :=
  match files with
  | [] => mret ()
  | file :: _ =>
      if negb (truthy (activeChatId r)) then
        handleNewChat newId now ;;
        setTimeout (RetryFileChange r files) 100
      else
        setUploadStatus uploading ;;
        setUploadedFileName (name file) ;;
        setIsLoading true ;;
        try_catch
          (result ← await (uploadDocument file);
           setUploadStatus success ;;
           setShowFeatures false ;;
           let docName := stripExtension (name file) in
           updateChatTitle (activeChatId r) docName ;;
           setTimeout ResetUploadStatus 5000)
          (λ _,
             setUploadStatus error ;;
             appendMessage r assistant UPLOAD_ERROR) ;;
        setIsLoading false
  end.

(** *** Events *)

(** Running a pending callback. *)
Definition runTimer (t : Timer) (newId : jsstring) (now : Z) : Handler () :=
  match t with
  | RetrySend r => handleSend r newId now
  | RetryFileChange r files => handleFileChange r files newId now
  | ResetUploadStatus => setUploadStatus idle
  end.

(** An event reaches the handler of the last render; when the handler is
    done its updates are committed. *)
Definition dispatch (handler : View → Handler ()) (rt : Runtime) : Runtime :=
  commit (handler (rendered rt) rt).2.

(** The [i]-th pending timer fires. *)
Definition fireTimer (i : nat) (newId : jsstring) (now : Z) (rt : Runtime)
  : Runtime :=
  match timers rt !! i with
  | None => rt
  | Some (t, _) =>
      commit (runTimer t newId now
                {| rendered := rendered rt; pending := pending rt;
                   timers := delete i (timers rt);
                   localStorage := localStorage rt |}).2
  end.

(** The operations of the session store, as the specification names them. *)
Inductive Op :=
  | createThread (newId : jsstring) (now : Z)
  | selectThread (cid : jsstring)
  | deleteThread (cid : jsstring)
  | appendMessageOp (role : Role) (content : jsstring)
  | renameThread (cid : jsstring) (newTitle : jsstring).

Definition opHandler (o : Op) (r : View) : Handler () :=
  match o with
  | createThread newId now => handleNewChat newId now
  | selectThread cid => handleSelectChat cid
  | deleteThread cid => handleDeleteChat r cid
  | appendMessageOp role content => appendMessage r role content
  | renameThread cid newTitle => updateChatTitle (Some cid) newTitle
  end.

Definition runOps (ops : list Op) (rt : Runtime) : Runtime :=
  foldl (λ rt o, dispatch (opHandler o) rt) rt ops.

End Component.

(** ** Words of a text, as the specification counts them *)

(** The whitespace-separated words of a text: its maximal runs of code units
    that are not whitespace.  This follows the specification's wording and
    is compared below with what [split(/\s+/)] yields on the trimmed text. *)
Fixpoint spec_words_go (cur : jsstring) (s : jsstring) : list jsstring :=
  match s with
  | [] => if truthy_str cur then [cur] else []
  | c :: t =>
      if is_space c
      then if truthy_str cur then cur :: spec_words_go [] t
           else spec_words_go [] t
      else spec_words_go (cur ++ [c]) t
  end.

Definition spec_words (s : jsstring) : list jsstring := spec_words_go [] s.

(** A text that does not end in whitespace. *)
Definition ends_clean (s : jsstring) : Prop :=
  ∀ p c, s = p ++ [c] → is_space c = false.

(** ** Scenarios *)

(** [onChange={e => setInput(e.target.value)}] of the text field. *)
Definition typeText (text : jsstring) (r : View) : Handler () :=
  setInput text.

(** The retry timer fires [n] times; [ids k] and [times k] are what
    [uuidv4()] and [Date.now()] return in the [k]-th run. *)
Fixpoint retries {api : Api} {codec : JsonCodec} (n : nat) (ids : nat → jsstring)
    (times : nat → Z) (rt : Runtime) : Runtime :=
  match n with
  | O => rt
  | S k => fireTimer 0 (ids k) (times k) (retries k ids times rt)
  end.

(** A codec for closed examples, which writes the ids of the threads only.
    Every property below is proved for an arbitrary codec. *)
Definition idsCodec : JsonCodec :=
  {| JSON_stringify := λ cs, js "[" ++ join (js ",") (id <$> cs) ++ js "]";
     JSON_parse := λ _, [] |}.

(** Backends for closed examples: one that is down, one that answers. *)
Definition backendDown : Api :=
  {| sendChatMessage := λ _, Rejected (js "Network Error");
     generateDocument := λ _ _, Rejected (js "Network Error");
     uploadDocument := λ _, Rejected (js "Network Error");
     textToSpeech := λ _, Rejected (js "Network Error") |}.

Definition backendUp : Api :=
  {| sendChatMessage := λ _, Resolved (js "Please consult the Act.");
     generateDocument := λ _ _, Resolved (js "LEGAL NOTICE");
     uploadDocument := λ _, Resolved (js "indexed");
     textToSpeech := λ _, Resolved [] |}.

(** A page for closed examples: the question ["hi"] typed, two threads, the
    first of them new and active. *)
Definition sampleChat : Chat :=
  {| id := js "t1"; title := NEW_CHAT; messages := []; createdAt := 1 |}.

Definition otherChat : Chat :=
  {| id := js "t0"; title := js "Lease dispute";
     messages := [{| role := user; content := js "Q" |};
                  {| role := assistant; content := js "A" |};
                  {| role := user; content := js "thanks" |}];
     createdAt := 0 |}.

Definition sampleView : View :=
  {| input := js "hi"; chats := [sampleChat; otherChat];
     activeChatId := Some (js "t1"); showFeatures := true;
     isLoading := false; uploadStatus := idle; uploadedFileName := [];
     docGenMode := false; docType := [] |}.

Definition sampleRuntime : Runtime :=
  {| rendered := sampleView; pending := sampleView; timers := [];
     localStorage := ∅ |}.

(** The same page with an active id that names no thread. *)
Definition strayView : View :=
  {| input := js "hi"; chats := [otherChat];
     activeChatId := Some (js "t1"); showFeatures := true;
     isLoading := false; uploadStatus := idle; uploadedFileName := [];
     docGenMode := false; docType := [] |}.

Definition strayRuntime : Runtime :=
  {| rendered := strayView; pending := strayView; timers := [];
     localStorage := ∅ |}.

(** The active-thread pointer is unset or names a thread of the list. *)
Definition active_ok (v : View) : Prop :=
  activeChatId v = None ∨
  ∃ chat, chat ∈ chats v ∧ activeChatId v = Some (id chat).

(** The store holds what the last render shows: the text of the thread list,
    and the active id whenever that is a non-empty string. *)
Definition persisted {codec : JsonCodec} (rt : Runtime) : Prop :=
  localStorage rt !! KEY_chats = Some (JSON_stringify (chats (rendered rt))) ∧
  ∀ a, activeChatId (rendered rt) = Some a → a ≠ [] →
       localStorage rt !! KEY_activeChatId = Some a.

Definition isCreateOrDelete (o : Op) : bool :=
  match o with
  | createThread _ _ | deleteThread _ => true
  | _ => false
  end.

(** ** The rest of the page *)

(** What the page shows of a render: the thread found by [getActiveChat]
    decides between the feature cards and the message area. *)
Definition featuresVisible (r : View) : bool :=
  negb (bool_decide (is_Some (getActiveChat r))) || showFeatures r.

Definition messagesVisible (r : View) : bool :=
  negb (showFeatures r) && bool_decide (is_Some (getActiveChat r)).

(** The Export button: [[...chat.messages].reverse().find(m => m.role ===
    'assistant')]. *)
Definition lastAssistant (ms : list Message) : option Message :=
  find (λ m, bool_decide (role m = assistant)) (rev ms).

(** The text of the downloaded file, or [None] when the handler returns
    without a download. *)
Definition exportDocument (r : View) : option jsstring :=
  match getActiveChat r with
  | None => None
  | Some chat =>
      match lastAssistant (messages chat) with
      | None => None
      | Some last => Some (content last)
      end
  end.

(** [handleHindiKeyPress]: [selection] is [selectionStart, selectionEnd] of
    the input element, [None] when [inputRef.current] is not set.  The
    result is the caret position the deferred callback sets, [None] when
    the handler returns early. *)
Definition handleHindiKeyPress (r : View) (selection : option (nat * nat))
    (button : jsstring) : Handler (option nat) :=
  match selection with
  | None => mret None
  | Some (start, stop) =>
      let newValue := take start (input r) ++ button ++ drop stop (input r) in
      setInput newValue ;;
      mret (Some (start + length button)%nat)
  end.

(** [handleHindiBackspace] *)
Definition handleHindiBackspace (r : View) (selection : option (nat * nat))
  : Handler (option nat) :=
  match selection with
  | None => mret None
  | Some (start, stop) =>
      if (start =? 0)%nat && (stop =? 0)%nat then mret None
      else if (start =? stop)%nat then
        if (start =? 0)%nat then mret None
        else
          setInput (take (start - 1) (input r) ++ drop stop (input r)) ;;
          mret (Some (start - 1)%nat)
      else
        setInput (take start (input r) ++ drop stop (input r)) ;;
        mret (Some start)
  end.

(** The [onKeyPress] of the on-screen keyboard. *)
Definition onKeyPress (r : View) (selection : option (nat * nat))
    (button : jsstring) : Handler (option nat) :=
  if bool_decide (button = js "SPACE")
  then handleHindiKeyPress r selection (js " ")
  else if bool_decide (button = js "BACKSPACE")
  then handleHindiBackspace r selection
  else handleHindiKeyPress r selection button.

(** *** [ThemeToggle] *)

Definition KEY_theme : jsstring := js "theme".
Definition LIGHT : jsstring := js "light".
Definition DARK : jsstring := js "dark".

(** The [theme] cell, the [data-theme] attribute of the document element
    and the browser store. *)
Record ThemePage := {
  theme : jsstring;
  dataTheme : option jsstring;
  themeStorage : gmap (list N) (list N)
}.

(** [localStorage.getItem('theme') || 'light'] *)
Definition initialTheme (store : gmap (list N) (list N)) : jsstring :=
  match or_null (store !! KEY_theme) with
  | Some saved => saved
  | None => LIGHT
  end.

(** The effect on [theme]: the attribute and the store both take it. *)
Definition themeEffect (t : jsstring) (store : gmap (list N) (list N))
  : ThemePage :=
  {| theme := t; dataTheme := Some t;
     themeStorage := <[KEY_theme := t]> store |}.

Definition themeMount (store : gmap (list N) (list N)) : ThemePage :=
  themeEffect (initialTheme store) store.

(** [toggleTheme], followed by the commit: the effect runs when the value
    of [theme] changed. *)
Definition toggleTheme (p : ThemePage) : ThemePage :=
  let next := if bool_decide (theme p = LIGHT) then DARK else LIGHT in
  if decide (next = theme p) then p
  else themeEffect next (themeStorage p).

Fixpoint toggles (n : nat) (p : ThemePage) : ThemePage :=
  match n with
  | O => p
  | S k => toggleTheme (toggles k p)
  end.

(** *** Events of the page *)

Inductive Event :=
  | StoreOp (o : Op)
  | Typed (text : jsstring)
  | SendClicked (newId : jsstring) (now : Z)
  | FilesChosen (files : list File) (newId : jsstring) (now : Z)
  | TimerFired (i : nat) (newId : jsstring) (now : Z).

Definition step {api : Api} {codec : JsonCodec} (e : Event) (rt : Runtime)
  : Runtime :=
  match e with
  | StoreOp o => dispatch (opHandler o) rt
  | Typed text => dispatch (typeText text) rt
  | SendClicked newId now => dispatch (λ r, handleSend r newId now) rt
  | FilesChosen files newId now =>
      dispatch (λ r, handleFileChange r files newId now) rt
  | TimerFired i newId now => fireTimer i newId now rt
  end.

Definition runEvents {api : Api} {codec : JsonCodec} (events : list Event)
    (rt : Runtime) : Runtime :=
  foldl (λ rt e, step e rt) rt events.

(** The id an event would give to a thread it creates. *)
Definition eventNewId (e : Event) : option jsstring :=
  match e with
  | StoreOp (createThread newId _) => Some newId
  | SendClicked newId _ | FilesChosen _ newId _ | TimerFired _ newId _ =>
      Some newId
  | _ => None
  end.

(** A handler keeps a property of the runtime. *)
Definition preserves {A} (I : Runtime → Prop) (h : Handler A) : Prop :=
  ∀ rt, I rt → I (h rt).2.

(** Thread ids are pairwise distinct. *)
Definition ids_unique (v : View) : Prop := NoDup (id <$> chats v).

(** [later] continues [earlier]: same id and creation time, and the
    messages of [earlier] are the first messages of [later]. *)
Definition continues (earlier later : Chat) : Prop :=
  id later = id earlier ∧ createdAt later = createdAt earlier ∧
  messages earlier `prefix_of` messages later.

(** The queued state holds the threads of [v0], each of them continued, and
    the active id of [v0]. *)
Definition inplace (v0 : View) (rt : Runtime) : Prop :=
  Forall2 continues (chats v0) (chats (pending rt)) ∧
  activeChatId (pending rt) = activeChatId v0.

(** [v'] is [v] with a new empty thread in front, which is active. *)
Definition created (newId : jsstring) (v v' : View) : Prop :=
  (∃ now, chats v' =
            {| id := newId; title := NEW_CHAT; messages := [];
               createdAt := now |} :: chats v) ∧
  activeChatId v' = Some newId.

(** The queued threads are those of [v0] in the same order and with the
    same ids, and only threads whose id is [a] may differ. *)
Definition touches_only (a : option jsstring) (v0 : View) (rt : Runtime)
  : Prop :=
  Forall2 (λ c0 c, id c = id c0 ∧ (Some (id c0) ≠ a → c = c0))
          (chats v0) (chats (pending rt)).

(** ** Strings: trimming and splitting *)

Section Strings.

Lemma truthy_str_true (s : jsstring) : truthy_str s = true ↔ s ≠ [].
Proof. destruct s; simpl; split; congruence. Qed.

Lemma truthy_str_snoc (s : jsstring) c : truthy_str (s ++ [c]) = true.
Proof. destruct s; reflexivity. Qed.

(** [trimStart] removes a prefix of whitespace and stops at the first code
    unit that is not whitespace. *)
Lemma trimStart_split (s : jsstring) :
  ∃ w, s = w ++ trimStart s ∧ forallb is_space w = true.
Proof.
  induction s as [|c t [w [Hw Hsp]]]; simpl.
  - exists []. done.
  - destruct (is_space c) eqn:Hc.
    + exists (c :: w). simpl. rewrite Hc, Hsp. split; [by f_equal|done].
    + exists []. done.
Qed.

Lemma trimStart_head (s : jsstring) c t :
  trimStart s = c :: t → is_space c = false.
Proof.
  induction s as [|d u IH]; simpl; [done|].
  destruct (is_space d) eqn:Hd; [done|].
  intros [= <- <-]. done.
Qed.

Lemma trimEnd_split (s : jsstring) :
  ∃ w, s = trimEnd s ++ w ∧ forallb is_space w = true.
Proof.
  unfold trimEnd. destruct (trimStart_split (rev s)) as [w [Hw Hsp]].
  exists (rev w). split.
  - rewrite <- rev_app_distr, <- Hw, rev_involutive. done.
  - rewrite forallb_forall in *. intros x Hx. apply Hsp. by apply in_rev.
Qed.

Lemma trimEnd_ends_clean (s : jsstring) : ends_clean (trimEnd s).
Proof.
  unfold ends_clean, trimEnd. intros p c Hp.
  apply (f_equal (@rev N)) in Hp.
  rewrite rev_involutive, rev_app_distr in Hp. simpl in Hp.
  by eapply trimStart_head.
Qed.

Lemma trim_ends_clean (s : jsstring) : ends_clean (trim s).
Proof. apply trimEnd_ends_clean. Qed.

(** A trimmed text that is not empty starts with a code unit that is not
    whitespace. *)
Lemma trim_head (s : jsstring) c t : trim s = c :: t → is_space c = false.
Proof.
  unfold trim. intros Ht.
  destruct (trimEnd_split (trimStart s)) as [w [Hw _]].
  rewrite Ht in Hw. simpl in Hw. by eapply trimStart_head.
Qed.

Lemma ends_clean_tail c (t : jsstring) : ends_clean (c :: t) → t ≠ [] → ends_clean t.
Proof.
  intros H _ p d ->. apply (H (c :: p) d). done.
Qed.

Lemma ends_clean_space c (t : jsstring) :
  ends_clean (c :: t) → is_space c = true → t ≠ [].
Proof.
  intros H Hc ->. specialize (H [] c eq_refl). congruence.
Qed.

(** On a text that does not end in whitespace, [split(/\s+/)] yields the
    words: once a piece has been started, and from inside a separator. *)
Lemma split_go_words (s : jsstring) :
  ends_clean s →
  (∀ cur, cur ≠ [] → split_go false cur s = spec_words_go cur s) ∧
  (s ≠ [] → split_go true [] s = spec_words_go [] s).
Proof.
  induction s as [|c t IH]; intros Hclean.
  - split; [|done]. intros cur Hcur. simpl.
    apply truthy_str_true in Hcur. by rewrite Hcur.
  - split.
    + intros cur Hcur. simpl. destruct (is_space c) eqn:Hc.
      * apply truthy_str_true in Hcur. rewrite Hcur. f_equal.
        pose proof (ends_clean_space _ _ Hclean Hc) as Ht.
        apply IH; [by eapply ends_clean_tail|done].
      * destruct t as [|d u].
        -- simpl. by rewrite truthy_str_snoc.
        -- apply IH; [by eapply ends_clean_tail|]. by destruct cur.
    + intros _. simpl. destruct (is_space c) eqn:Hc.
      * pose proof (ends_clean_space _ _ Hclean Hc) as Ht.
        apply IH; [by eapply ends_clean_tail|done].
      * destruct t as [|d u]; [done|].
        apply IH; [by eapply ends_clean_tail|done].
Qed.

Lemma spec_words_go_trimStart (s : jsstring) :
  spec_words_go [] (trimStart s) = spec_words_go [] s.
Proof.
  induction s as [|c t IH]; simpl; [done|].
  destruct (is_space c) eqn:Hc; simpl; [done|]. by rewrite Hc.
Qed.

Lemma spec_words_go_trailing (w : jsstring) :
  forallb is_space w = true →
  ∀ s cur, spec_words_go cur (s ++ w) = spec_words_go cur s.
Proof.
  intros Hw. induction s as [|c t IH]; intros cur; simpl.
  - clear -Hw. revert cur. induction w as [|c w IH]; intros cur; simpl; [done|].
    simpl in Hw. apply andb_true_iff in Hw as [Hc Hw]. rewrite Hc.
    destruct (truthy_str cur); rewrite (IH Hw); done.
  - destruct (is_space c); [destruct (truthy_str cur)|]; by rewrite IH.
Qed.

Lemma spec_words_trim (s : jsstring) : spec_words (trim s) = spec_words s.
Proof.
  unfold spec_words, trim.
  destruct (trimEnd_split (trimStart s)) as [w [Hw Hsp]].
  rewrite <- (spec_words_go_trimStart s). rewrite Hw at 2.
  by rewrite spec_words_go_trailing.
Qed.

(** What [content.trim().split(/\s+/)] holds: the words of [content], or one
    empty piece when [content] has no word. *)
Lemma split_trim_words (s : jsstring) :
  split_ws (trim s) = if truthy_str (trim s) then spec_words s else [[]].
Proof.
  destruct (trim s) as [|c t] eqn:Ht; simpl; [done|].
  rewrite <- spec_words_trim, Ht. unfold split_ws, spec_words. simpl.
  rewrite (trim_head _ _ _ Ht).
  pose proof (trim_ends_clean s) as Hclean. rewrite Ht in Hclean.
  destruct t as [|d u]; [done|].
  apply split_go_words; [by eapply ends_clean_tail|done].
Qed.

Lemma spec_words_no_text (s : jsstring) : trim s = [] → spec_words s = [].
Proof. intros Ht. by rewrite <- spec_words_trim, Ht. Qed.

End Strings.

(** ** Titles *)

Section Titles.

(** C6, as stated, fails: a text of at most three words is not always
    returned unchanged.  Surrounding whitespace is trimmed away, and the empty
    text yields the sentinel title. *)
Lemma generateChatTitle_short_text_changed :
  (length (spec_words (js " Hello")) ≤ 3)%nat ∧
  generateChatTitle (js " Hello") = js "Hello" ∧
  generateChatTitle (js " Hello") ≠ js " Hello" ∧
  (length (spec_words []) ≤ 3)%nat ∧
  generateChatTitle [] ≠ [].
Proof. vm_compute. repeat split; (lia || discriminate). Qed.

(** C6, amended: [generateChatTitle] returns the sentinel title for the empty
    text; any other text of at most three whitespace-separated words is
    returned with its leading and trailing whitespace trimmed; a text of more
    than three words yields its first four words joined by single spaces, cut
    to 30 code units and followed by the ellipsis when the join is longer than
    30; and [generateChatTitle "Hello" = "Hello"]. *)
Theorem generateChatTitle_spec (content : jsstring) :
  generateChatTitle [] = NEW_CHAT ∧
  (content ≠ [] → (length (spec_words content) ≤ 3)%nat →
   generateChatTitle content = trim content) ∧
  ((3 < length (spec_words content))%nat →
   let joined := join (js " ") (take 4 (spec_words content)) in
   generateChatTitle content =
     if (30 <? length joined)%nat then take 30 joined ++ ELLIPSIS
     else joined) ∧
  generateChatTitle (js "Hello") = js "Hello".
Proof.
  split; [reflexivity|]. split; [|split; [|reflexivity]].
  - intros Hne Hlen. unfold generateChatTitle.
    apply truthy_str_true in Hne. rewrite Hne. simpl negb. cbv iota.
    rewrite split_trim_words.
    destruct (truthy_str (trim content)).
    + apply Nat.leb_le in Hlen. by rewrite Hlen.
    + reflexivity.
  - intros Hlen joined. unfold generateChatTitle.
    assert (Htrim : truthy_str (trim content) = true).
    { apply truthy_str_true. intros Ht.
      rewrite (spec_words_no_text _ Ht) in Hlen. simpl in Hlen. lia. }
    assert (Hne : truthy_str content = true).
    { destruct content; [|done]. discriminate Htrim. }
    rewrite Hne. simpl negb. cbv iota.
    rewrite split_trim_words, Htrim.
    assert (Hgt : (length (spec_words content) <=? 3)%nat = false)
      by (apply Nat.leb_gt; lia).
    rewrite Hgt. reflexivity.
Qed.

Lemma generateChatTitle_spec_witness :
  generateChatTitle (js "  Section 138 notice ") = js "Section 138 notice" ∧
  generateChatTitle (js "how do I file a consumer complaint") = js "how do I file".
Proof.
  split.
  - apply (proj1 (proj2 (generateChatTitle_spec (js "  Section 138 notice ")))).
    + discriminate.
    + vm_compute. lia.
  - apply (proj1 (proj2 (proj2
      (generateChatTitle_spec (js "how do I file a consumer complaint"))))).
    vm_compute. lia.
Defined.

(** Truncation of a long join ([substring(0, 30) + '...']). *)
Example generateChatTitle_truncates :
  generateChatTitle
    (js "international constitutional jurisprudence questions here")
  = js "international constitutional j...".
Proof. reflexivity. Qed.

Lemma ext_tail_dot (b ext : jsstring) : ext_tail (b ++ DOT :: ext) = false.
Proof.
  unfold ext_tail. apply andb_false_iff. right.
  induction b as [|c b IH]; simpl.
  - reflexivity.
  - rewrite IH. apply andb_false_r.
Qed.

(** A name that ends in an extension (a dot followed by one or more code
    units, none a dot or a slash) loses the dot and the extension. *)
Lemma stripExtension_ext (base ext : jsstring) :
  ext_tail ext = true → stripExtension (base ++ DOT :: ext) = base.
Proof.
  intros Hext. induction base as [|c b IH]; simpl.
  - by rewrite Hext.
  - rewrite ext_tail_dot, andb_false_r. by rewrite IH.
Qed.

(** A name with no such ending is unchanged. *)
Lemma stripExtension_none (name : jsstring) :
  (∀ base ext, name = base ++ DOT :: ext → ext_tail ext = false) →
  stripExtension name = name.
Proof.
  induction name as [|c t IH]; intros Hno; simpl; [done|].
  destruct (c =? DOT)%N eqn:Hc.
  - apply N.eqb_eq in Hc as ->. rewrite (Hno [] t eq_refl). simpl.
    f_equal. apply IH. intros base ext ->. apply (Hno (DOT :: base) ext). done.
  - simpl. f_equal. apply IH. intros base ext ->.
    apply (Hno (c :: base) ext). done.
Qed.

End Titles.

(** ** The session store *)

Section Store.
Context {codec : JsonCodec}.

Lemma truthy_Some (a : jsstring) : a ≠ [] → truthy (Some a) = true.
Proof. by destruct a. Qed.

Lemma rendered_commit (rt : Runtime) : rendered (commit rt) = pending rt.
Proof. reflexivity. Qed.

(** C5: [appendMessage] does nothing at all when no thread is active, and
    otherwise appends the one message [{role, content}] at the end of the
    message list of the active thread. *)
Theorem appendMessage_spec (r : View) (role0 : Role) (content0 : jsstring)
    (rt : Runtime) :
  (activeChatId r = None →
   appendMessage r role0 content0 rt = (Normal (), rt)) ∧
  (truthy (activeChatId r) = true →
   (appendMessage r role0 content0 rt).1 = Normal () ∧
   ∀ i chat,
     chats (pending rt) !! i = Some chat →
     Some (id chat) = activeChatId r →
     chats (pending (appendMessage r role0 content0 rt).2) !! i =
       Some (with_messages chat
               (messages chat ++ [{| role := role0; content := content0 |}]))).
Proof.
  unfold appendMessage. split.
  - intros ->. reflexivity.
  - intros ->. simpl. split; [reflexivity|].
    intros i chat Hi Hid. rewrite list_lookup_fmap, Hi. simpl.
    by rewrite bool_decide_eq_true_2.
Qed.

Lemma appendMessage_spec_witness :
  let r := {| input := []; chats := [
                {| id := js "t1"; title := NEW_CHAT; messages := [];
                   createdAt := 0 |}];
              activeChatId := Some (js "t1"); showFeatures := true;
              isLoading := false; uploadStatus := idle;
              uploadedFileName := []; docGenMode := false; docType := [] |} in
  let rt := {| rendered := r; pending := r; timers := [];
               localStorage := ∅ |} in
  chats (pending (appendMessage r user (js "Q") rt).2) !! 0%nat =
    Some {| id := js "t1"; title := NEW_CHAT;
            messages := [{| role := user; content := js "Q" |}];
            createdAt := 0 |}.
Proof.
  intros r rt.
  apply (proj2 (proj2 (appendMessage_spec r user (js "Q") rt) eq_refl) 0%nat
           {| id := js "t1"; title := NEW_CHAT; messages := [];
              createdAt := 0 |}); reflexivity.
Defined.

(** C10: [appendMessage] changes nothing but the message list of the active
    thread: the pointer, the number and order of the threads, every thread's
    [id], [title] and [createdAt], every other thread as a whole, and the
    rest of the component's state are as before. *)
Theorem appendMessage_frame (r : View) (role0 : Role) (content0 : jsstring)
    (rt : Runtime) :
  let rt' := (appendMessage r role0 content0 rt).2 in
  activeChatId (pending rt') = activeChatId (pending rt) ∧
  length (chats (pending rt')) = length (chats (pending rt)) ∧
  (∀ i chat,
     chats (pending rt) !! i = Some chat →
     ∃ chat',
       chats (pending rt') !! i = Some chat' ∧
       id chat' = id chat ∧ title chat' = title chat ∧
       createdAt chat' = createdAt chat ∧
       (Some (id chat) ≠ activeChatId r → chat' = chat)) ∧
  input (pending rt') = input (pending rt) ∧
  showFeatures (pending rt') = showFeatures (pending rt) ∧
  isLoading (pending rt') = isLoading (pending rt) ∧
  rendered rt' = rendered rt ∧ timers rt' = timers rt ∧
  localStorage rt' = localStorage rt.
Proof.
  unfold appendMessage. destruct (truthy (activeChatId r)); simpl.
  - repeat split; try reflexivity.
    + apply length_map.
    + intros i chat Hi. rewrite list_lookup_fmap, Hi. simpl.
      eexists. split; [reflexivity|].
      case_bool_decide; simpl; repeat split; try reflexivity.
      intros Hne. contradiction.
  - repeat split; try reflexivity.
    intros i chat Hi. exists chat. by repeat split.
Qed.

Lemma appendMessage_frame_witness :
  let other := {| id := js "t0"; title := js "Lease"; messages := [];
                  createdAt := 0 |} in
  let r := {| input := []; chats := [
                {| id := js "t1"; title := NEW_CHAT; messages := [];
                   createdAt := 1 |}; other];
              activeChatId := Some (js "t1"); showFeatures := true;
              isLoading := false; uploadStatus := idle;
              uploadedFileName := []; docGenMode := false; docType := [] |} in
  let rt := {| rendered := r; pending := r; timers := [];
               localStorage := ∅ |} in
  ∃ chat',
    chats (pending (appendMessage r user (js "Q") rt).2) !! 1%nat = Some chat' ∧
    id chat' = id other ∧ title chat' = title other ∧
    createdAt chat' = createdAt other ∧
    (Some (id other) ≠ activeChatId r → chat' = other).
Proof.
  intros other r rt.
  apply (proj1 (proj2 (proj2 (appendMessage_frame r user (js "Q") rt)))
           1%nat other).
  reflexivity.
Defined.

(** *** Commits and the store *)

Lemma keys_distinct : KEY_chats ≠ KEY_activeChatId.
Proof. discriminate. Qed.

(** None of the store operations suspends, schedules a timer or throws: each
    is one batch of updates on the queued state. *)
Lemma opHandler_run (o : Op) (r : View) (rt : Runtime) :
  ∃ v, opHandler o r rt =
         (Normal (),
          {| rendered := rendered rt; pending := v; timers := timers rt;
             localStorage := localStorage rt |}).
Proof.
  destruct o; simpl;
    unfold handleDeleteChat, appendMessage, updateChatTitle, handleNewChat,
      handleSelectChat; simpl.
  - eexists; reflexivity.
  - eexists; reflexivity.
  - destruct (bool_decide _); eexists; reflexivity.
  - destruct (truthy _); simpl; [eexists; reflexivity|].
    exists (pending rt). by destruct rt.
  - eexists; reflexivity.
Qed.

Lemma commit_persisted (rt : Runtime) (v : View) :
  persisted rt →
  persisted (commit {| rendered := rendered rt; pending := v;
                       timers := timers rt;
                       localStorage := localStorage rt |}).
Proof.
  intros [Hchats Hactive]. unfold persisted, commit. simpl.
  assert (Hc : (if decide (chats (rendered rt) = chats v)
                then localStorage rt
                else persistChats v (localStorage rt)) !! KEY_chats
               = Some (JSON_stringify (chats v))).
  { case_decide as Heq.
    - by rewrite Hchats, Heq.
    - unfold persistChats. apply lookup_insert_eq. }
  split.
  - destruct (decide (activeChatId (rendered rt) = activeChatId v));
      [exact Hc|].
    unfold persistActiveChatId.
    destruct (activeChatId v) as [a|]; [|exact Hc].
    destruct (truthy_str a); [|exact Hc].
    rewrite lookup_insert_ne; [exact Hc|]. apply not_eq_sym, keys_distinct.
  - intros a Ha Hne.
    destruct (decide (activeChatId (rendered rt) = activeChatId v)) as [Heq|Heq].
    + destruct (decide (chats (rendered rt) = chats v)).
      * apply Hactive; [congruence|done].
      * unfold persistChats. rewrite lookup_insert_ne by apply keys_distinct.
        apply Hactive; [congruence|done].
    + unfold persistActiveChatId. rewrite Ha.
      apply truthy_str_true in Hne. rewrite Hne. apply lookup_insert_eq.
Qed.

Lemma mount_persisted (store : gmap (list N) (list N)) :
  persisted (mount store).
Proof.
  unfold persisted, mount. simpl. split.
  - unfold persistActiveChatId. simpl.
    assert (Hc : persistChats (initialView store) store !! KEY_chats
                 = Some (JSON_stringify (initialChats store)))
      by apply lookup_insert_eq.
    destruct (initialActiveChatId store) as [a|]; [|exact Hc].
    destruct (truthy_str a); [|exact Hc].
    rewrite lookup_insert_ne; [exact Hc|]. apply not_eq_sym, keys_distinct.
  - intros a Ha Hne. unfold persistActiveChatId. simpl. rewrite Ha.
    apply truthy_str_true in Hne. rewrite Hne. apply lookup_insert_eq.
Qed.

Lemma dispatch_persisted (o : Op) (rt : Runtime) :
  persisted rt → persisted (dispatch (opHandler o) rt).
Proof.
  intros Hp. unfold dispatch.
  destruct (opHandler_run o (rendered rt) rt) as [v ->]. simpl.
  by apply commit_persisted.
Qed.

Lemma runOps_persisted (ops : list Op) (rt : Runtime) :
  persisted rt → persisted (runOps ops rt).
Proof.
  revert rt. induction ops as [|o ops IH]; intros rt Hp; simpl; [done|].
  apply IH. by apply dispatch_persisted.
Qed.

(** After an event the rendered state is the queued one. *)
Lemma dispatch_settled (h : View → Handler ()) (rt : Runtime) :
  pending (dispatch h rt) = rendered (dispatch h rt).
Proof. reflexivity. Qed.

Lemma runOps_settled (ops : list Op) (rt : Runtime) :
  pending rt = rendered rt →
  pending (runOps ops rt) = rendered (runOps ops rt).
Proof.
  revert rt. induction ops as [|o ops IH]; intros rt Hs; simpl; [done|].
  apply IH, dispatch_settled.
Qed.

(** *** What each operation does to the state *)

Lemma handleNewChat_view (newId : jsstring) (now : Z) (rt : Runtime) :
  let v := pending (handleNewChat newId now rt).2 in
  chats v = {| id := newId; title := NEW_CHAT; messages := [];
               createdAt := now |} :: chats (pending rt) ∧
  activeChatId v = Some newId ∧ input v = [] ∧ showFeatures v = true.
Proof. by repeat split. Qed.

Lemma handleDeleteChat_view (r : View) (cid : jsstring) (rt : Runtime) :
  let v := pending (handleDeleteChat r cid rt).2 in
  chats v = filter (λ chat, id chat ≠ cid) (chats (pending rt)) ∧
  activeChatId v =
    if bool_decide (activeChatId r = Some cid)
    then or_null (id <$> head (filter (λ chat, id chat ≠ cid) (chats r)))
    else activeChatId (pending rt).
Proof.
  unfold handleDeleteChat. simpl. destruct (bool_decide _); by split.
Qed.

Lemma or_null_cases (v : option jsstring) :
  or_null v = None ∨ (or_null v = v ∧ truthy v = true).
Proof. unfold or_null. destruct (truthy v); auto. Qed.

Lemma active_ok_create_delete (o : Op) (rt : Runtime) :
  isCreateOrDelete o = true →
  pending rt = rendered rt →
  active_ok (rendered rt) →
  active_ok (rendered (dispatch (opHandler o) rt)).
Proof.
  intros Ho Hset Hok. unfold dispatch. rewrite rendered_commit.
  destruct o as [newId now| |cid| |]; try discriminate; simpl.
  - right.
    exists {| id := newId; title := NEW_CHAT; messages := [];
              createdAt := now |}.
    split; [|reflexivity]. apply elem_of_cons. by left.
  - destruct (handleDeleteChat_view (rendered rt) cid rt) as [Hc Ha].
    unfold active_ok. rewrite Hc, Ha, Hset. clear Hc Ha.
    case_bool_decide as Hact.
    + destruct (or_null_cases
        (id <$> head (filter (λ chat, id chat ≠ cid) (chats (rendered rt)))))
        as [->|[-> _]]; [by left|].
      destruct (head _) as [chat|] eqn:Hhead; [|by left].
      right. exists chat. split; [|done]. by eapply head_Some_elem_of.
    + destruct Hok as [->|[chat [Hin Hid]]]; [by left|].
      right. exists chat. split; [|done].
      apply list_elem_of_filter. split; [|done]. congruence.
Qed.

Lemma runOps_active_ok (ops : list Op) (rt : Runtime) :
  forallb isCreateOrDelete ops = true →
  pending rt = rendered rt → active_ok (rendered rt) →
  active_ok (rendered (runOps ops rt)).
Proof.
  revert rt. induction ops as [|o ops IH]; intros rt Hops Hset Hok; simpl;
    [done|].
  simpl in Hops. apply andb_true_iff in Hops as [Ho Hops].
  apply IH; [done|apply dispatch_settled|].
  by apply active_ok_create_delete.
Qed.

(** Deleting the active thread moves the pointer to the first thread that
    remains, or to none when no thread remains. *)
Lemma handleDeleteChat_pointer (rt : Runtime) (cid : jsstring) :
  pending rt = rendered rt →
  activeChatId (rendered rt) = Some cid →
  Forall (λ chat, id chat ≠ []) (chats (rendered rt)) →
  let v' := rendered (dispatch (λ r, handleDeleteChat r cid) rt) in
  activeChatId v' = id <$> head (chats v').
Proof.
  intros Hset Hact Hids v'. subst v'. unfold dispatch.
  rewrite rendered_commit.
  destruct (handleDeleteChat_view (rendered rt) cid rt) as [-> ->].
  rewrite Hset, Hact, bool_decide_eq_true_2 by done.
  destruct (head _) as [chat|] eqn:Hhead; [|done].
  unfold or_null. simpl. apply head_Some_elem_of in Hhead.
  apply list_elem_of_filter in Hhead as [_ Hin].
  rewrite Forall_forall in Hids. specialize (Hids _ Hin).
  apply truthy_str_true in Hids. by rewrite Hids.
Qed.

(** C1: after any sequence of [createThread] and [deleteThread] operations
    from the empty session state, [activeThreadId] is none or is the id of a
    thread present in [threads].  In the state so reached, [createThread]
    puts the new thread in front of the list and makes it the active one;
    [deleteThread] removes the threads with the given id, moves the pointer
    to the first remaining thread (or to none when no thread remains) when
    the deleted thread was active, and leaves the pointer alone otherwise.
    Thread ids are [uuidv4()] values, which are not empty. *)
Theorem active_thread_exists (ops : list Op) :
  forallb isCreateOrDelete ops = true →
  let rt := runOps ops (mount ∅) in
  let v := rendered rt in
  (activeChatId v = None ∨
   ∃ chat, chat ∈ chats v ∧ activeChatId v = Some (id chat)) ∧
  (∀ newId now,
     let v' := rendered (dispatch (opHandler (createThread newId now)) rt) in
     chats v' =
       {| id := newId; title := NEW_CHAT; messages := []; createdAt := now |}
       :: chats v ∧
     activeChatId v' = Some newId) ∧
  (∀ cid,
     let v' := rendered (dispatch (opHandler (deleteThread cid)) rt) in
     chats v' = filter (λ chat, id chat ≠ cid) (chats v) ∧
     (activeChatId v = Some cid →
      Forall (λ chat, id chat ≠ []) (chats v) →
      activeChatId v' = id <$> head (chats v')) ∧
     (activeChatId v ≠ Some cid → activeChatId v' = activeChatId v)).
Proof.
  intros Hops rt v.
  assert (Hset : pending rt = rendered rt) by (by apply runOps_settled).
  split; [|split].
  - apply (runOps_active_ok ops (mount ∅) Hops); [done|by left].
  - intros newId now v'. subst v' v. unfold dispatch.
    rewrite rendered_commit. cbn [opHandler].
    destruct (handleNewChat_view newId now rt) as (Hc & Ha & _).
    by rewrite Hc, Ha, Hset.
  - intros cid v'.
    destruct (handleDeleteChat_view (rendered rt) cid rt) as [Hc Ha].
    rewrite Hset in Hc, Ha.
    split; [exact Hc|]. split.
    + intros Hact Hids. by apply (handleDeleteChat_pointer rt cid).
    + intros Hne. subst v' v. unfold dispatch. rewrite rendered_commit.
      cbn [opHandler]. by rewrite Ha, bool_decide_eq_false_2.
Qed.

(** C2, amended: after every sequence of store operations from startup the
    store holds the text of the current thread list under ['chats'] and,
    whenever the active id is a non-empty string (as every id made by
    [uuidv4()] is), that id under ['activeChatId']; an operation after which
    the active id is none or the empty string does not write
    ['activeChatId'], which keeps its previous value; and a store whose two
    entries are absent or empty rehydrates to the empty thread list with no
    active thread. *)
Theorem store_follows_state (store0 : gmap (list N) (list N))
    (ops : list Op) :
  let rt := runOps ops (mount store0) in
  localStorage rt !! KEY_chats = Some (JSON_stringify (chats (rendered rt))) ∧
  (∀ a, activeChatId (rendered rt) = Some a → a ≠ [] →
        localStorage rt !! KEY_activeChatId = Some a) ∧
  (∀ o, truthy (activeChatId (rendered (dispatch (opHandler o) rt))) = false →
        localStorage (dispatch (opHandler o) rt) !! KEY_activeChatId =
          localStorage rt !! KEY_activeChatId) ∧
  (∀ store : gmap (list N) (list N),
     store !! KEY_chats = None ∨ store !! KEY_chats = Some [] →
     store !! KEY_activeChatId = None ∨ store !! KEY_activeChatId = Some [] →
     chats (initialView store) = [] ∧ activeChatId (initialView store) = None).
Proof.
  intros rt.
  destruct (runOps_persisted ops (mount store0) (mount_persisted store0))
    as [Hc Ha].
  split; [exact Hc|]. split; [exact Ha|]. split.
  - intros o Hnone. unfold dispatch in *.
    destruct (opHandler_run o (rendered rt) rt) as [v Hv].
    rewrite Hv in *. simpl in Hnone. unfold commit. simpl.
    assert (Hk : ∀ st : gmap (list N) (list N),
               (if decide (chats (rendered rt) = chats v) then st
                else persistChats v st) !! KEY_activeChatId
               = st !! KEY_activeChatId).
    { intros st. case_decide; [done|].
      unfold persistChats. apply lookup_insert_ne, keys_distinct. }
    destruct (decide (activeChatId (rendered rt) = activeChatId v));
      [apply Hk|].
    unfold persistActiveChatId.
    destruct (activeChatId v) as [a|]; [|apply Hk].
    simpl in Hnone. rewrite Hnone. apply Hk.
  - intros store Hcs Hact. simpl. unfold initialChats, initialActiveChatId.
    split.
    + by destruct Hcs as [-> | ->].
    + by destruct Hact as [-> | ->].
Qed.

(** C7, amended: [selectThread(id)] sets [activeThreadId] to [id] whether or
    not a thread with that id exists, and leaves [threads] unchanged. *)
Theorem handleSelectChat_spec (cid : jsstring) (rt : Runtime) :
  let rt' := dispatch (λ _, handleSelectChat cid) rt in
  activeChatId (rendered rt') = Some cid ∧
  chats (rendered rt') = chats (pending rt) ∧
  showFeatures (rendered rt') = false.
Proof. by repeat split. Qed.

(** C4: [deleteThread(id)] removes the threads with that id and keeps every
    other thread, in order; if the deleted thread was active the pointer
    moves to the first remaining thread, or to none when no thread remains,
    and otherwise stays; deleting the only thread while it is active leaves
    no thread and no active thread.  Thread ids are [uuidv4()] values, which
    are not empty. *)
Theorem handleDeleteChat_spec (rt : Runtime) (cid : jsstring) :
  pending rt = rendered rt →
  Forall (λ chat, id chat ≠ []) (chats (rendered rt)) →
  let before := rendered rt in
  let after := rendered (dispatch (λ r, handleDeleteChat r cid) rt) in
  (∀ chat, chat ∈ chats after ↔ chat ∈ chats before ∧ id chat ≠ cid) ∧
  chats after = filter (λ chat, id chat ≠ cid) (chats before) ∧
  sublist (chats after) (chats before) ∧
  (activeChatId before = Some cid →
   activeChatId after = id <$> head (chats after)) ∧
  (activeChatId before ≠ Some cid →
   activeChatId after = activeChatId before) ∧
  (∀ chat, chats before = [chat] → activeChatId before = Some cid →
           id chat = cid → chats after = [] ∧ activeChatId after = None).
Proof.
  intros Hset Hids before after.
  destruct (handleDeleteChat_view (rendered rt) cid rt) as [Hc Ha].
  rewrite Hset in Hc, Ha.
  assert (Hchats : chats after = filter (λ chat, id chat ≠ cid) (chats before))
    by exact Hc.
  assert (Hact : activeChatId before = Some cid →
                 activeChatId after = id <$> head (chats after)).
  { intros Hb. subst after before. unfold dispatch. rewrite rendered_commit.
    rewrite Ha, Hc, Hb, bool_decide_eq_true_2 by done.
    destruct (head _) as [chat|] eqn:Hhead; [|done].
    unfold or_null. simpl. apply head_Some_elem_of in Hhead.
    apply list_elem_of_filter in Hhead as [_ Hin].
    rewrite Forall_forall in Hids. specialize (Hids _ Hin).
    apply truthy_str_true in Hids. by rewrite Hids. }
  split; [|split; [exact Hchats|split; [|split; [exact Hact|split]]]].
  - intros chat. rewrite Hchats, list_elem_of_filter. tauto.
  - rewrite Hchats. apply sublist_filter.
  - intros Hb. subst after before. unfold dispatch. rewrite rendered_commit.
    rewrite Ha, bool_decide_eq_false_2 by done. done.
  - intros chat Hone Hb Hid. rewrite (Hact Hb), Hchats, Hone.
    rewrite filter_cons_False by (intros Hne; by apply Hne). done.
Qed.

End Store.

(** ** Sending and uploading *)

Section Dispatcher.
Context {api : Api} {codec : JsonCodec}.

(** C8: when the chat-query or document-generation call issued by
    [handleSend] is rejected, whatever the error, [handleSend] completes
    normally, the loading flag is false, and the active thread has received
    the user's message followed by exactly one assistant message, the fixed
    error text; no other thread has changed. *)
Theorem handleSend_failure (r : View) (newId : jsstring) (now : Z)
    (rt : Runtime) (a e : jsstring) :
  activeChatId r = Some a → a ≠ [] →
  trim (input r) ≠ [] →
  (if docGenMode r
   then generateDocument (input r) (or_null (Some (docType r)))
   else sendChatMessage (input r)) = Rejected e →
  let result := handleSend r newId now rt in
  result.1 = Normal () ∧
  isLoading (pending result.2) = false ∧
  ∀ i chat,
    chats (pending rt) !! i = Some chat →
    chats (pending result.2) !! i =
      Some (if bool_decide (id chat = a)
            then with_messages chat
                   (messages chat ++
                      [{| role := user; content := input r |};
                       {| role := assistant; content := SEND_ERROR |}])
            else chat).
Proof.
  intros Hact Hne Hinput Hfail result. subst result. unfold handleSend.
  apply truthy_str_true in Hinput. rewrite Hinput.
  unfold appendMessage. rewrite Hact, (truthy_Some _ Hne). simpl negb.
  cbv iota.
  destruct (docGenMode r); rewrite Hfail; simpl;
    (split; [reflexivity|split; [reflexivity|]]);
    intros i chat Hi;
    rewrite !list_lookup_fmap, Hi; simpl;
    (destruct (decide (id chat = a)) as [Hid|Hid];
     [ rewrite (bool_decide_eq_true_2 (id chat = a)) by done;
       rewrite (bool_decide_eq_true_2 (Some (id chat) = Some a))
         by congruence;
       simpl; rewrite (bool_decide_eq_true_2 (Some (id chat) = Some a))
         by congruence;
       unfold with_messages; simpl; by rewrite <- app_assoc
     | rewrite (bool_decide_eq_false_2 (id chat = a)) by done;
       rewrite !(bool_decide_eq_false_2 (Some (id chat) = Some a))
         by congruence;
       reflexivity ]).
Qed.

(** C9: when the upload succeeds with an active thread, the title of the
    active thread becomes the file name without its trailing extension,
    whatever the title was before; a name [base.ext] yields [base], a name
    with no extension at its end is kept; and ["contract.pdf"] yields
    ["contract"]. *)
Theorem handleFileChange_success (r : View) (file : File) (rest : list File)
    (newId : jsstring) (now : Z) (rt : Runtime) (a v : jsstring) :
  activeChatId r = Some a → a ≠ [] →
  uploadDocument file = Resolved v →
  let result := handleFileChange r (file :: rest) newId now rt in
  result.1 = Normal () ∧
  uploadStatus (pending result.2) = success ∧
  isLoading (pending result.2) = false ∧
  (∀ i chat,
     chats (pending rt) !! i = Some chat → id chat = a →
     chats (pending result.2) !! i =
       Some (with_title chat (stripExtension (name file)))) ∧
  (∀ base ext, name file = base ++ DOT :: ext → ext_tail ext = true →
               stripExtension (name file) = base) ∧
  ((∀ base ext, name file = base ++ DOT :: ext → ext_tail ext = false) →
   stripExtension (name file) = name file) ∧
  stripExtension (js "contract.pdf") = js "contract".
Proof.
  intros Hact Hne Hup result. subst result. unfold handleFileChange.
  rewrite Hact, (truthy_Some _ Hne). simpl negb. cbv iota.
  rewrite Hup. simpl.
  split; [reflexivity|]. split; [reflexivity|]. split; [reflexivity|].
  split; [|split; [|split; [|reflexivity]]].
  - intros i chat Hi Hid. rewrite list_lookup_fmap, Hi. simpl.
    rewrite bool_decide_eq_true_2 by congruence. reflexivity.
  - intros base ext -> Hext. by apply stripExtension_ext.
  - apply stripExtension_none.
Qed.

(** *** Sending without an active thread *)

(** One run of the retry: the handler of the old render still sees no active
    thread, creates one more thread and schedules itself again. *)
Lemma retry_step (r0 : View) (newId : jsstring) (now : Z) (rt : Runtime) :
  truthy_str (trim (input r0)) = true →
  truthy (activeChatId r0) = false →
  timers rt = [(RetrySend r0, 100)] →
  let rt' := fireTimer 0 newId now rt in
  timers rt' = [(RetrySend r0, 100)] ∧
  rendered rt' = pending rt' ∧
  chats (pending rt') =
    {| id := newId; title := NEW_CHAT; messages := []; createdAt := now |}
    :: chats (pending rt) ∧
  activeChatId (pending rt') = Some newId.
Proof.
  intros Hin Hact Htm rt'. subst rt'. unfold fireTimer. rewrite Htm. simpl.
  unfold handleSend. rewrite Hin, Hact. simpl. by repeat split.
Qed.

(** C3 fails on the code.  With the text ["hi"] typed and no active thread,
    [handleSend] creates a thread and schedules a retry of itself; the retry
    is the handler of the render in which no thread was active, so each run
    creates one more thread and schedules the next.  After [n] runs there
    are [n + 1] threads, none of them holds a message, and a retry is still
    pending. *)
Theorem handleSend_without_active_chat (newId : jsstring) (now : Z)
    (ids : nat → jsstring) (times : nat → Z) (n : nat) :
  let rt0 := dispatch (typeText (js "hi")) (mount ∅) in
  let rt := retries n ids times (dispatch (λ r, handleSend r newId now) rt0) in
  activeChatId (rendered rt0) = None ∧
  length (chats (rendered rt)) = S n ∧
  Forall (λ chat, messages chat = []) (chats (rendered rt)) ∧
  timers rt = [(RetrySend (rendered rt0), 100)].
Proof.
  intros rt0 rt. split; [reflexivity|].
  assert (Hinv : timers rt = [(RetrySend (rendered rt0), 100)] ∧
                 rendered rt = pending rt ∧
                 length (chats (pending rt)) = S n ∧
                 Forall (λ chat, messages chat = []) (chats (pending rt))).
  { subst rt. induction n as [|n IH].
    - simpl. repeat split. repeat constructor.
    - simpl retries.
      destruct IH as (Htm & Hset & Hlen & Hall).
      destruct (retry_step (rendered rt0) (ids n) (times n) _
                  eq_refl eq_refl Htm) as (Htm' & Hset' & Hc & _).
      split; [exact Htm'|]. split; [exact Hset'|].
      rewrite Hc. split; [simpl; by rewrite Hlen|].
      constructor; [reflexivity|exact Hall]. }
  destruct Hinv as (Htm & -> & Hlen & Hall). done.
Qed.

End Dispatcher.

(** ** More on titles *)

Section MoreTitles.

(** What [generateChatTitle] returns for a text of more than three words. *)
Lemma generateChatTitle_long (content : jsstring) :
  (3 < length (spec_words content))%nat →
  generateChatTitle content =
    if (30 <? length (join (js " ") (take 4 (spec_words content))))%nat
    then take 30 (join (js " ") (take 4 (spec_words content))) ++ ELLIPSIS
    else join (js " ") (take 4 (spec_words content)).
Proof.
  intros Hlen. unfold generateChatTitle.
  assert (Htrim : truthy_str (trim content) = true).
  { apply truthy_str_true. intros Ht.
    rewrite (spec_words_no_text _ Ht) in Hlen. simpl in Hlen. lia. }
  assert (Hne : truthy_str content = true).
  { destruct content; [|done]. discriminate Htrim. }
  rewrite Hne. simpl negb. cbv iota. rewrite split_trim_words, Htrim.
  assert (Hgt : (length (spec_words content) <=? 3)%nat = false)
    by (apply Nat.leb_gt; lia).
  by rewrite Hgt.
Qed.

Lemma generateChatTitle_short (content : jsstring) :
  content ≠ [] → (length (spec_words content) ≤ 3)%nat →
  generateChatTitle content = trim content.
Proof.
  intros Hne Hlen. unfold generateChatTitle.
  apply truthy_str_true in Hne. rewrite Hne. simpl negb. cbv iota.
  rewrite split_trim_words.
  destruct (truthy_str (trim content)); [|reflexivity].
  apply Nat.leb_le in Hlen. by rewrite Hlen.
Qed.

(** X1: a title made from a text of more than three words has at most 33
    code units (30 of the join and the ellipsis). *)
Theorem generateChatTitle_length (content : jsstring) :
  (3 < length (spec_words content))%nat →
  (length (generateChatTitle content) ≤ 33)%nat.
Proof.
  intros Hlen. rewrite (generateChatTitle_long _ Hlen).
  destruct (30 <? _)%nat eqn:Hcmp.
  - rewrite length_app, length_take.
    change (length ELLIPSIS) with 3%nat. lia.
  - apply Nat.ltb_ge in Hcmp. lia.
Qed.

(** X2: a text that is not blank never gets an empty title. *)
Theorem generateChatTitle_nonempty (content : jsstring) :
  trim content ≠ [] → generateChatTitle content ≠ [].
Proof.
  intros Htrim.
  assert (Hne : content ≠ []) by (intros ->; by apply Htrim).
  destruct (le_lt_dec (length (spec_words content)) 3) as [Hle|Hgt].
  - by rewrite (generateChatTitle_short _ Hne Hle).
  - rewrite (generateChatTitle_long _ Hgt).
    destruct (spec_words content) as [|w1 [|w2 ws]]; simpl in Hgt; try lia.
    destruct (30 <? _)%nat.
    + intros Happ. apply app_eq_nil in Happ as [_ Hell]. discriminate Hell.
    + simpl. intros Happ. apply app_eq_nil in Happ as [_ Hsep].
      discriminate Hsep.
Qed.

(** X3: stripping the extension only cuts the end of a name off. *)
Theorem stripExtension_prefix (name : jsstring) :
  stripExtension name `prefix_of` name.
Proof.
  induction name as [|c t IH]; simpl; [done|].
  destruct ((c =? DOT)%N && ext_tail t).
  - apply prefix_nil.
  - by apply prefix_cons.
Qed.

(** X4: the stripped name is empty exactly when the name is empty or is a
    dot followed by an extension, as in [".pdf"]. *)
Theorem stripExtension_empty (name : jsstring) :
  stripExtension name = [] ↔
  name = [] ∨ ∃ ext, name = DOT :: ext ∧ ext_tail ext = true.
Proof.
  destruct name as [|c t]; simpl.
  - split; [by left|done].
  - destruct (c =? DOT)%N eqn:Hc; simpl.
    + apply N.eqb_eq in Hc as ->. destruct (ext_tail t) eqn:Ht.
      * split; [|done]. intros _. right. by exists t.
      * split; [done|]. intros [|[ext [[= ->] Hext]]]; [done|congruence].
    + split; [done|]. intros [|[ext [[= -> ->] _]]]; [done|].
      discriminate Hc.
Qed.

End MoreTitles.

(** ** Invariants of the page *)

Section Invariants.
Context {api : Api} {codec : JsonCodec}.

(** *** Handlers built from steps that keep a property *)

Lemma preserves_ret {A} (I : Runtime → Prop) (a : A) :
  preserves I (mret a : Handler A).
Proof. by intros rt. Qed.

Lemma preserves_bind {A B} (I : Runtime → Prop) (h : Handler A)
    (k : A → Handler B) :
  preserves I h → (∀ a, preserves I (k a)) → preserves I (h ≫= k).
Proof.
  intros Hh Hk rt Hrt. specialize (Hh rt Hrt).
  unfold mbind, Handler_bind. destruct (h rt) as [[a|e] rt']; simpl in *.
  - by apply Hk.
  - done.
Qed.

Lemma preserves_try_catch {A} (I : Runtime → Prop) (body : Handler A)
    (handler : jsstring → Handler A) :
  preserves I body → (∀ e, preserves I (handler e)) →
  preserves I (try_catch body handler).
Proof.
  intros Hb Hh rt Hrt. specialize (Hb rt Hrt).
  unfold try_catch. destruct (body rt) as [[a|e] rt']; simpl in *.
  - done.
  - by apply Hh.
Qed.

Lemma preserves_update (I : Runtime → Prop) (f : View → View) :
  (∀ rt, I rt →
     I {| rendered := rendered rt; pending := f (pending rt);
          timers := timers rt; localStorage := localStorage rt |}) →
  preserves I (update f).
Proof. intros Hf rt Hrt. by apply Hf. Qed.

(** *** The store follows the state *)

Lemma persisted_pending (rt : Runtime) (v : View) (tm : list (Timer * Z)) :
  persisted rt →
  persisted {| rendered := rendered rt; pending := v; timers := tm;
               localStorage := localStorage rt |}.
Proof. by intros Hp. Qed.

Lemma persisted_commit (rt : Runtime) : persisted rt → persisted (commit rt).
Proof. intros Hp. destruct rt. by apply (commit_persisted _ _ Hp). Qed.

Lemma persisted_update (f : View → View) : preserves persisted (update f).
Proof. apply preserves_update. intros rt. apply persisted_pending. Qed.

Lemma persisted_setTimeout (t : Timer) (d : Z) :
  preserves persisted (setTimeout t d).
Proof. intros rt. apply persisted_pending. Qed.

Lemma persisted_await (o : Outcome) : preserves persisted (await o).
Proof. intros rt. apply persisted_commit. Qed.

Lemma persisted_appendMessage (r : View) (ro : Role) (c : jsstring) :
  preserves persisted (appendMessage r ro c).
Proof.
  unfold appendMessage. destruct (negb _).
  - apply preserves_ret.
  - apply persisted_update.
Qed.

Lemma persisted_handleNewChat (newId : jsstring) (now : Z) :
  preserves persisted (handleNewChat newId now).
Proof.
  unfold handleNewChat. repeat apply preserves_bind; intros;
    apply persisted_update.
Qed.

Ltac persisted_steps :=
  repeat first
    [ apply preserves_ret
    | apply persisted_update
    | apply persisted_setTimeout
    | apply persisted_await
    | apply persisted_appendMessage
    | apply persisted_handleNewChat
    | apply preserves_bind; [|intros ?]
    | apply preserves_try_catch; [|intros ?] ].

Lemma persisted_handleSend (r : View) (newId : jsstring) (now : Z) :
  preserves persisted (handleSend r newId now).
Proof.
  unfold handleSend.
  destruct (truthy_str _); [|apply preserves_ret].
  destruct (negb _); [persisted_steps|].
  persisted_steps.
  - destruct (docGenMode r); apply persisted_await.
  - destruct (getActiveChat r) as [c|]; [|apply preserves_ret].
    destruct (bool_decide _); [apply persisted_update|apply preserves_ret].
Qed.

Lemma persisted_handleFileChange (r : View) (files : list File)
    (newId : jsstring) (now : Z) :
  preserves persisted (handleFileChange r files newId now).
Proof.
  unfold handleFileChange. destruct files as [|file rest];
    [apply preserves_ret|].
  destruct (negb _); persisted_steps.
Qed.

Lemma persisted_dispatch (h : View → Handler ()) (rt : Runtime) :
  (∀ r, preserves persisted (h r)) →
  persisted rt → persisted (dispatch h rt).
Proof. intros Hh Hp. apply persisted_commit. by apply Hh. Qed.

Lemma persisted_step (e : Event) (rt : Runtime) :
  persisted rt → persisted (step e rt).
Proof.
  intros Hp. destruct e as [o|text|newId now|files newId now|i newId now];
    simpl.
  - by apply dispatch_persisted.
  - apply persisted_dispatch; [|done]. intros r. apply persisted_update.
  - apply persisted_dispatch; [|done]. intros r. apply persisted_handleSend.
  - apply persisted_dispatch; [|done]. intros r.
    apply persisted_handleFileChange.
  - unfold fireTimer. destruct (timers rt !! i) as [[t d]|]; [|done].
    apply persisted_commit.
    assert (Hrun : preserves persisted (runTimer t newId now)).
    { destruct t; simpl;
        [apply persisted_handleSend|apply persisted_handleFileChange
        |apply persisted_update]. }
    apply Hrun. by apply persisted_pending.
Qed.

(** X5: through every sequence of events of the page (store operations,
    typing, send, file selection, timers firing), whatever the backend
    answers, the store holds the text of the current thread list under
    ['chats'] and the active id, when one is set, under ['activeChatId']. *)
Theorem store_follows_events (store0 : gmap (list N) (list N))
    (events : list Event) :
  let rt := runEvents events (mount store0) in
  localStorage rt !! KEY_chats = Some (JSON_stringify (chats (rendered rt))) ∧
  ∀ a, activeChatId (rendered rt) = Some a → a ≠ [] →
       localStorage rt !! KEY_activeChatId = Some a.
Proof.
  intros rt. change (persisted rt). subst rt.
  generalize (mount_persisted store0). generalize (mount store0).
  induction events as [|e events IH]; intros rt Hp; simpl; [done|].
  apply IH. by apply persisted_step.
Qed.

(** *** Threads are continued in place *)

Lemma continues_refl (c : Chat) : continues c c.
Proof. by repeat split. Qed.

Lemma continues_trans (c1 c2 c3 : Chat) :
  continues c1 c2 → continues c2 c3 → continues c1 c3.
Proof.
  intros (Hi1 & Hc1 & Hm1) (Hi2 & Hc2 & Hm2). repeat split.
  - congruence.
  - congruence.
  - by etrans.
Qed.

Lemma continues_all_refl (cs : list Chat) : Forall2 continues cs cs.
Proof. induction cs; constructor; [apply continues_refl|done]. Qed.

Lemma continues_map (g : Chat → Chat) (cs0 cs : list Chat) :
  (∀ c, continues c (g c)) →
  Forall2 continues cs0 cs → Forall2 continues cs0 (map g cs).
Proof.
  intros Hg Hcs. induction Hcs as [|c0 c cs0 cs Hc _ IH]; simpl;
    constructor; [|done].
  eapply continues_trans; [exact Hc|apply Hg].
Qed.

Lemma inplace_init (rt : Runtime) : inplace (pending rt) rt.
Proof. split; [apply continues_all_refl|done]. Qed.

Lemma inplace_update (v0 : View) (f : View → View) :
  (∀ v, chats (f v) = chats v ∧ activeChatId (f v) = activeChatId v) →
  preserves (inplace v0) (update f).
Proof.
  intros Hf. apply preserves_update. intros rt [Hc Ha].
  unfold inplace. simpl. destruct (Hf (pending rt)) as [-> ->]. done.
Qed.

Lemma inplace_setChats_map (v0 : View) (g : Chat → Chat) :
  (∀ c, continues c (g c)) → preserves (inplace v0) (setChats (map g)).
Proof.
  intros Hg. apply preserves_update. intros rt [Hc Ha].
  unfold inplace. simpl. split; [by apply continues_map|done].
Qed.

Lemma inplace_setTimeout (v0 : View) (t : Timer) (d : Z) :
  preserves (inplace v0) (setTimeout t d).
Proof. by intros rt. Qed.

Lemma inplace_await (v0 : View) (o : Outcome) :
  preserves (inplace v0) (await o).
Proof. by intros rt. Qed.

Lemma inplace_appendMessage (v0 r : View) (ro : Role) (c : jsstring) :
  preserves (inplace v0) (appendMessage r ro c).
Proof.
  unfold appendMessage. destruct (negb _); [apply preserves_ret|].
  apply inplace_setChats_map. intros chat.
  destruct (bool_decide _); [|apply continues_refl].
  repeat split. simpl. by apply prefix_app_r.
Qed.

Lemma inplace_updateChatTitle (v0 : View) (chatId : option jsstring)
    (t : jsstring) :
  preserves (inplace v0) (updateChatTitle chatId t).
Proof.
  apply inplace_setChats_map. intros chat.
  destruct (bool_decide _); by repeat split.
Qed.

Ltac inplace_steps :=
  repeat first
    [ apply preserves_ret
    | apply inplace_setTimeout
    | apply inplace_await
    | apply inplace_appendMessage
    | apply inplace_updateChatTitle
    | apply inplace_update; by intros ?
    | apply preserves_bind; [|intros ?]
    | apply preserves_try_catch; [|intros ?] ].

(** A send either finds no active thread and creates one, or continues the
    threads in place. *)
Lemma handleSend_cases (r : View) (newId : jsstring) (now : Z)
    (rt : Runtime) :
  let rt' := (handleSend r newId now rt).2 in
  created newId (pending rt) (pending rt') ∨ inplace (pending rt) rt'.
Proof.
  intros rt'. subst rt'. unfold handleSend.
  destruct (truthy_str _); [|right; apply inplace_init].
  destruct (negb _).
  - left. split; [by exists now|done].
  - right.
    match goal with
    | |- inplace _ (?h rt).2 =>
        assert (Hp : preserves (inplace (pending rt)) h);
          [|exact (Hp rt (inplace_init rt))]
    end.
    inplace_steps.
    + destruct (docGenMode r); apply inplace_await.
    + destruct (getActiveChat r) as [c|]; [|apply preserves_ret].
      destruct (bool_decide _);
        [apply inplace_updateChatTitle|apply preserves_ret].
Qed.

Lemma handleFileChange_cases (r : View) (files : list File)
    (newId : jsstring) (now : Z) (rt : Runtime) :
  let rt' := (handleFileChange r files newId now rt).2 in
  created newId (pending rt) (pending rt') ∨ inplace (pending rt) rt'.
Proof.
  intros rt'. subst rt'. unfold handleFileChange.
  destruct files as [|file rest]; [right; apply inplace_init|].
  destruct (negb _).
  - left. split; [by exists now|done].
  - right.
    match goal with
    | |- inplace _ (?h rt).2 =>
        assert (Hp : preserves (inplace (pending rt)) h);
          [|exact (Hp rt (inplace_init rt))]
    end.
    inplace_steps.
Qed.

Lemma inplace_commit (v0 : View) (rt : Runtime) :
  inplace v0 rt → inplace v0 (commit rt).
Proof. done. Qed.

Lemma continues_ids (cs0 cs : list Chat) :
  Forall2 continues cs0 cs → id <$> cs = id <$> cs0.
Proof.
  intros Hc. induction Hc as [|c0 c cs0 cs (Hid & _) _ IH]; [done|].
  rewrite !fmap_cons. by rewrite Hid, IH.
Qed.

(** What one event does to the threads and to the active id: it creates a
    thread, continues the threads in place, selects, or deletes. *)
Lemma step_cases (e : Event) (rt : Runtime) :
  pending rt = rendered rt →
  let v := rendered rt in
  let v' := rendered (step e rt) in
  (∃ newId, eventNewId e = Some newId ∧ created newId v v') ∨
  (inplace v (step e rt) ∧ pending (step e rt) = v') ∨
  (∃ cid, e = StoreOp (selectThread cid) ∧ chats v' = chats v ∧
          activeChatId v' = Some cid) ∨
  (∃ cid, e = StoreOp (deleteThread cid) ∧
          chats v' = filter (λ chat, id chat ≠ cid) (chats v)).
Proof.
  intros Hset v v'. subst v v'.
  destruct e as [o|text|newId now|files newId now|i newId now];
    cbn [step eventNewId].
  - destruct o as [newId now|cid|cid|ro c|cid t];
      unfold dispatch; cbn [opHandler].
    + left. exists newId. split; [done|]. unfold dispatch. simpl.
      rewrite Hset. split; [by exists now|done].
    + right. right. left. exists cid. unfold dispatch. simpl.
      by rewrite Hset.
    + right. right. right. exists cid. split; [done|].
      unfold dispatch. rewrite rendered_commit.
      destruct (handleDeleteChat_view (rendered rt) cid rt) as [-> _].
      by rewrite Hset.
    + right. left. split; [|done]. unfold dispatch. apply inplace_commit.
      rewrite <- Hset at 1. apply inplace_appendMessage, inplace_init.
    + right. left. split; [|done]. unfold dispatch. apply inplace_commit.
      rewrite <- Hset at 1. apply inplace_updateChatTitle, inplace_init.
  - right. left. split; [|done]. unfold dispatch. apply inplace_commit.
    rewrite <- Hset at 1. unfold typeText.
    apply inplace_update; [done|apply inplace_init].
  - unfold dispatch. rewrite rendered_commit.
    destruct (handleSend_cases (rendered rt) newId now rt) as [Hc|Hi].
    + left. exists newId. split; [done|]. by rewrite <- Hset at 1.
    + right. left. split; [|done]. apply inplace_commit.
      by rewrite <- Hset at 1.
  - unfold dispatch. rewrite rendered_commit.
    destruct (handleFileChange_cases (rendered rt) files newId now rt)
      as [Hc|Hi].
    + left. exists newId. split; [done|]. by rewrite <- Hset at 1.
    + right. left. split; [|done]. apply inplace_commit.
      by rewrite <- Hset at 1.
  - unfold fireTimer. destruct (timers rt !! i) as [[t d]|] eqn:Hi.
    + rewrite rendered_commit.
      set (rt2 := {| rendered := rendered rt; pending := pending rt;
                     timers := delete i (timers rt);
                     localStorage := localStorage rt |}).
      assert (Hp : pending rt2 = rendered rt) by exact Hset.
      destruct t as [r|r files|]; cbn [runTimer].
      * destruct (handleSend_cases r newId now rt2) as [Hc|Hin].
        -- left. exists newId. split; [done|]. by rewrite <- Hp.
        -- right. left. split; [|done]. apply inplace_commit.
           by rewrite <- Hp.
      * destruct (handleFileChange_cases r files newId now rt2) as [Hc|Hin].
        -- left. exists newId. split; [done|]. by rewrite <- Hp.
        -- right. left. split; [|done]. apply inplace_commit.
           by rewrite <- Hp.
      * right. left. split; [|done]. apply inplace_commit.
        rewrite <- Hp. apply inplace_update; [done|apply inplace_init].
    + right. left. split; [|done]. rewrite <- Hset at 1. apply inplace_init.
Qed.

(** X6: no event of the page takes a message away from a thread, reorders
    its messages or changes its id or creation time: every thread shown
    after an event is either the empty thread the event created, or the
    continuation of a thread shown before. *)
Theorem messages_append_only (e : Event) (rt : Runtime) (chat' : Chat) :
  pending rt = rendered rt →
  chat' ∈ chats (rendered (step e rt)) →
  (messages chat' = [] ∧ title chat' = NEW_CHAT ∧
   eventNewId e = Some (id chat')) ∨
  ∃ chat, chat ∈ chats (rendered rt) ∧ continues chat chat'.
Proof.
  intros Hset Hin.
  destruct (step_cases e rt Hset)
    as [(newId & He & (now & Hc) & _)
       |[[[Hc _] Hp]|[(cid & _ & Hc & _)|(cid & _ & Hc)]]].
  - rewrite Hc in Hin. apply elem_of_cons in Hin as [->|Hin].
    + left. by rewrite He.
    + right. exists chat'. split; [done|apply continues_refl].
  - right. rewrite Hp in Hc.
    apply list_elem_of_lookup in Hin as [i Hi].
    destruct (Forall2_lookup_r _ _ _ _ _ Hc Hi) as (chat & Hl & Hcont).
    exists chat. split; [|done]. by eapply list_elem_of_lookup_2.
  - right. rewrite Hc in Hin. exists chat'.
    split; [done|apply continues_refl].
  - right. rewrite Hc in Hin. apply list_elem_of_filter in Hin as [_ Hin].
    exists chat'. split; [done|apply continues_refl].
Qed.

(** X7: thread ids stay pairwise distinct as long as the id an event gives
    to a new thread is not in use. *)
Theorem ids_stay_unique (e : Event) (rt : Runtime) :
  pending rt = rendered rt →
  ids_unique (rendered rt) →
  (∀ newId, eventNewId e = Some newId →
            newId ∉ id <$> chats (rendered rt)) →
  ids_unique (rendered (step e rt)).
Proof.
  intros Hset Huniq Hfresh. unfold ids_unique in *.
  destruct (step_cases e rt Hset)
    as [(newId & He & (now & Hc) & _)
       |[[[Hc _] Hp]|[(cid & _ & Hc & _)|(cid & _ & Hc)]]].
  - rewrite Hc, fmap_cons. simpl. apply NoDup_cons. split; [|done].
    by apply Hfresh.
  - rewrite Hp in Hc. by rewrite (continues_ids _ _ Hc).
  - by rewrite Hc.
  - rewrite Hc.
    apply (sublist_NoDup _ (id <$> chats (rendered rt))); [exact Huniq|].
    apply fmap_sublist, sublist_filter.
Qed.

(** X8: the active id stays none or the id of a thread of the list through
    every event, provided a selection names a thread of the list (as the
    sidebar does). *)
Theorem active_thread_kept (e : Event) (rt : Runtime) :
  pending rt = rendered rt →
  active_ok (rendered rt) →
  (∀ cid, e = StoreOp (selectThread cid) →
          cid ∈ id <$> chats (rendered rt)) →
  let v' := rendered (step e rt) in
  activeChatId v' = None ∨
  ∃ chat, chat ∈ chats v' ∧ activeChatId v' = Some (id chat).
Proof.
  intros Hset Hok Hsel v'. change (active_ok v'). subst v'.
  destruct (step_cases e rt Hset)
    as [(newId & He & (now & Hc) & Ha)
       |[[[Hc Ha] Hp]|[(cid & -> & Hc & Ha)|(cid & -> & _)]]].
  - right. eexists. rewrite Hc, Ha. split; [apply elem_of_cons; by left|done].
  - rewrite Hp in Hc, Ha. destruct Hok as [Hnone|(chat & Hin & Hact)].
    + left. congruence.
    + right. apply list_elem_of_lookup in Hin as [i Hi].
      destruct (Forall2_lookup_l _ _ _ _ _ Hc Hi) as (chat' & Hl & Hid & _).
      exists chat'. split; [by eapply list_elem_of_lookup_2|]. congruence.
  - right. specialize (Hsel cid eq_refl).
    apply list_elem_of_fmap in Hsel as (chat & -> & Hin).
    exists chat. by rewrite Hc, Ha.
  - by apply (active_ok_create_delete (deleteThread cid)).
Qed.

End Invariants.

(** ** More on sending and uploading *)

Section MoreDispatcher.
Context {api : Api} {codec : JsonCodec}.

Lemma trimStart_blank (s : jsstring) :
  forallb is_space s = true → trimStart s = [].
Proof.
  induction s as [|c t IH]; simpl; [done|].
  intros Hsp. apply andb_true_iff in Hsp as [-> Ht]. by apply IH.
Qed.

Lemma trim_blank (s : jsstring) : forallb is_space s = true → trim s = [].
Proof. intros Hsp. unfold trim. by rewrite (trimStart_blank _ Hsp). Qed.

(** X9: a send with an empty or all-whitespace input does nothing at all:
    no thread is created, no message appended, no timer scheduled, whether
    or not a thread is active. *)
Theorem handleSend_blank (r : View) (newId : jsstring) (now : Z)
    (rt : Runtime) :
  forallb is_space (input r) = true →
  handleSend r newId now rt = (Normal (), rt).
Proof.
  intros Hsp. unfold handleSend. by rewrite (trim_blank _ Hsp).
Qed.

(** The thread list after a send whose call is answered. *)
Lemma send_answered_view (r : View) (newId : jsstring) (now : Z)
    (rt : Runtime) (a v : jsstring) :
  activeChatId r = Some a → a ≠ [] →
  trim (input r) ≠ [] →
  (if docGenMode r
   then generateDocument (input r) (or_null (Some (docType r)))
   else sendChatMessage (input r)) = Resolved v →
  let result := handleSend r newId now rt in
  let rename :=
    match getActiveChat r with
    | Some activeChat => bool_decide (title activeChat = NEW_CHAT)
    | None => false
    end in
  result.1 = Normal () ∧
  isLoading (pending result.2) = false ∧
  input (pending result.2) = [] ∧
  timers result.2 = timers rt ∧
  ∀ i chat,
    chats (pending rt) !! i = Some chat →
    chats (pending result.2) !! i =
      Some (if bool_decide (id chat = a)
            then
              let answered :=
                with_messages chat
                  (messages chat ++
                     [{| role := user; content := input r |};
                      {| role := assistant; content := v |}]) in
              if rename
              then with_title answered (generateChatTitle (input r))
              else answered
            else chat).
Proof.
  intros Hact Hne Hinput Hok result rename. subst result rename.
  unfold handleSend.
  apply truthy_str_true in Hinput. rewrite Hinput.
  unfold appendMessage, updateChatTitle.
  rewrite Hact, (truthy_Some _ Hne). simpl negb. cbv iota.
  destruct (docGenMode r); rewrite Hok;
    (destruct (getActiveChat r) as [ac|];
     [destruct (bool_decide (title ac = NEW_CHAT))|]);
    unfold mbind, mret, Handler_bind, Handler_ret, try_catch, await,
      setChats, setInput, setShowFeatures, setIsLoading, update;
    simpl; destruct (textToSpeech v); simpl;
    (split; [reflexivity|split; [reflexivity|split; [reflexivity|
       split; [reflexivity|]]]]);
    intros i chat Hi;
    rewrite !list_lookup_fmap, Hi; simpl;
    (destruct (decide (id chat = a)) as [Hid|Hid];
     [ rewrite (bool_decide_eq_true_2 (id chat = a)) by done;
       rewrite (bool_decide_eq_true_2 (Some (id chat) = Some a))
         by congruence;
       simpl;
       rewrite ?(bool_decide_eq_true_2 (Some (id chat) = Some a))
         by congruence;
       simpl;
       rewrite ?(bool_decide_eq_true_2 (Some (id chat) = Some a))
         by congruence;
       unfold with_messages, with_title; simpl; by rewrite <- app_assoc
     | rewrite (bool_decide_eq_false_2 (id chat = a)) by done;
       rewrite !(bool_decide_eq_false_2 (Some (id chat) = Some a))
         by congruence;
       reflexivity ]).
Qed.

(** *** Only the active thread is touched *)

Lemma touches_only_init (a : option jsstring) (rt : Runtime) :
  touches_only a (pending rt) rt.
Proof.
  unfold touches_only. induction (chats (pending rt)); constructor; done.
Qed.

Lemma touches_only_update (a : option jsstring) (v0 : View)
    (f : View → View) :
  (∀ v, chats (f v) = chats v) → preserves (touches_only a v0) (update f).
Proof.
  intros Hf. apply preserves_update. intros rt Ht.
  unfold touches_only in *. simpl. by rewrite Hf.
Qed.

Lemma touches_only_map (a : option jsstring) (v0 : View) (g : Chat → Chat) :
  (∀ c, id (g c) = id c ∧ (Some (id c) ≠ a → g c = c)) →
  preserves (touches_only a v0) (setChats (map g)).
Proof.
  intros Hg. apply preserves_update. intros rt Ht.
  unfold touches_only in *. simpl.
  induction Ht as [|c0 c cs0 cs [Hid Hsame] _ IH]; simpl; constructor;
    [|done].
  destruct (Hg c) as [Hgid Hgsame]. split; [congruence|].
  intros Hne. rewrite Hgsame; [by apply Hsame|]. by rewrite Hid.
Qed.

Lemma touches_only_appendMessage (v0 r : View) (ro : Role) (c : jsstring) :
  preserves (touches_only (activeChatId r) v0) (appendMessage r ro c).
Proof.
  unfold appendMessage. destruct (negb _); [apply preserves_ret|].
  apply touches_only_map. intros chat.
  case_bool_decide; by split.
Qed.

Lemma touches_only_updateChatTitle (v0 : View) (chatId : option jsstring)
    (t : jsstring) :
  preserves (touches_only chatId v0) (updateChatTitle chatId t).
Proof.
  apply touches_only_map. intros chat. case_bool_decide; by split.
Qed.

Ltac touches_steps :=
  repeat first
    [ apply preserves_ret
    | apply touches_only_appendMessage
    | apply touches_only_updateChatTitle
    | apply touches_only_update; by intros ?
    | (intros ? ?; assumption)
    | apply preserves_bind; [|intros ?]
    | apply preserves_try_catch; [|intros ?] ].

Lemma touches_only_handleSend (v0 r : View) (newId : jsstring) (now : Z) :
  truthy (activeChatId r) = true →
  preserves (touches_only (activeChatId r) v0) (handleSend r newId now).
Proof.
  intros Hact. unfold handleSend. rewrite Hact. simpl negb. cbv iota.
  destruct (truthy_str _); [|apply preserves_ret].
  touches_steps.
  - destruct (docGenMode r); by intros rt.
  - destruct (getActiveChat r) as [c|]; [|apply preserves_ret].
    destruct (bool_decide _);
      [apply touches_only_updateChatTitle|apply preserves_ret].
Qed.

Lemma touches_only_handleFileChange (v0 r : View) (files : list File)
    (newId : jsstring) (now : Z) :
  truthy (activeChatId r) = true →
  preserves (touches_only (activeChatId r) v0)
            (handleFileChange r files newId now).
Proof.
  intros Hact. unfold handleFileChange.
  destruct files as [|file rest]; [apply preserves_ret|].
  rewrite Hact. simpl negb. cbv iota.
  touches_steps; by intros rt.
Qed.

Lemma touches_only_lookup (a : option jsstring) (v0 : View) (rt : Runtime)
    (i : nat) (chat : Chat) :
  touches_only a v0 rt →
  chats v0 !! i = Some chat → Some (id chat) ≠ a →
  chats (pending rt) !! i = Some chat.
Proof.
  intros Ht Hi Hne.
  destruct (Forall2_lookup_l _ _ _ _ _ Ht Hi) as (c & Hc & _ & Hsame).
  by rewrite Hc, (Hsame Hne).
Qed.

(** X10: a send made for a thread leaves every thread with another id as
    it is, and keeps the number of threads, whatever the backend and the
    speech service answer. *)
Theorem handleSend_frame (r : View) (newId : jsstring) (now : Z)
    (rt : Runtime) :
  truthy (activeChatId r) = true →
  let rt' := (handleSend r newId now rt).2 in
  length (chats (pending rt')) = length (chats (pending rt)) ∧
  ∀ i chat,
    chats (pending rt) !! i = Some chat → Some (id chat) ≠ activeChatId r →
    chats (pending rt') !! i = Some chat.
Proof.
  intros Hact rt'.
  pose proof (touches_only_handleSend (pending rt) r newId now Hact rt
                (touches_only_init _ rt)) as Ht.
  split.
  - symmetry. by eapply Forall2_length.
  - intros i chat. by apply touches_only_lookup.
Qed.

(** X11: the same for a file selection made for a thread. *)
Theorem handleFileChange_frame (r : View) (files : list File)
    (newId : jsstring) (now : Z) (rt : Runtime) :
  truthy (activeChatId r) = true →
  let rt' := (handleFileChange r files newId now rt).2 in
  length (chats (pending rt')) = length (chats (pending rt)) ∧
  ∀ i chat,
    chats (pending rt) !! i = Some chat → Some (id chat) ≠ activeChatId r →
    chats (pending rt') !! i = Some chat.
Proof.
  intros Hact rt'.
  pose proof (touches_only_handleFileChange (pending rt) r files newId now
                Hact rt (touches_only_init _ rt)) as Ht.
  split.
  - symmetry. by eapply Forall2_length.
  - intros i chat. by apply touches_only_lookup.
Qed.

(** X12: when the active id names no thread of the list (the state a
    reload restores after the last thread was deleted), a send changes no
    thread: the text and the answer are dropped. *)
Theorem handleSend_no_such_thread (r : View) (newId : jsstring) (now : Z)
    (rt : Runtime) :
  truthy (activeChatId r) = true →
  (∀ chat, chat ∈ chats (pending rt) → Some (id chat) ≠ activeChatId r) →
  chats (pending (handleSend r newId now rt).2) = chats (pending rt).
Proof.
  intros Hact Hnone.
  pose proof (touches_only_handleSend (pending rt) r newId now Hact rt
                (touches_only_init _ rt)) as Ht.
  unfold touches_only in Ht. revert Ht Hnone.
  generalize (chats (pending (handleSend r newId now rt).2)).
  generalize (chats (pending rt)).
  intros cs0 cs Ht. induction Ht as [|c0 c cs0 cs [_ Hsame] _ IH];
    intros Hnone; [done|].
  rewrite Hsame by (apply Hnone; by left).
  f_equal. apply IH. intros chat Hin. apply Hnone. by right.
Qed.

(** *** The active thread *)

(** With distinct ids, [getActiveChat] finds the thread the active id
    names. *)
Lemma getActiveChat_unique (v : View) (i : nat) (chat : Chat) :
  ids_unique v → chats v !! i = Some chat →
  activeChatId v = Some (id chat) → getActiveChat v = Some chat.
Proof.
  unfold ids_unique, getActiveChat. intros Huniq Hi ->.
  revert i Huniq Hi. induction (chats v) as [|c t IH]; intros i Huniq Hi;
    [done|].
  rewrite fmap_cons in Huniq. apply NoDup_cons in Huniq as [Hnin Huniq].
  destruct i as [|j]; simpl in *.
  - injection Hi as ->. by rewrite bool_decide_eq_true_2.
  - rewrite bool_decide_eq_false_2; [by eapply IH|].
    intros [= Heq]. apply Hnin. rewrite Heq.
    apply list_elem_of_fmap. exists chat.
    split; [done|by eapply list_elem_of_lookup_2].
Qed.

(** X13: when the call is answered, a send made on the current render
    (distinct thread ids, the active id naming [chat]) completes normally
    with the loading flag off and the input cleared; [chat] receives the
    user's text and then the answer; its title becomes the title derived
    from the text exactly when it was still the sentinel.  None of this
    depends on what the speech service does. *)
Theorem handleSend_success (newId : jsstring) (now : Z) (rt : Runtime)
    (i : nat) (chat : Chat) (v : jsstring) :
  let r := pending rt in
  ids_unique r → chats r !! i = Some chat →
  activeChatId r = Some (id chat) → id chat ≠ [] →
  trim (input r) ≠ [] →
  (if docGenMode r
   then generateDocument (input r) (or_null (Some (docType r)))
   else sendChatMessage (input r)) = Resolved v →
  let result := handleSend r newId now rt in
  let answered :=
    with_messages chat
      (messages chat ++ [{| role := user; content := input r |};
                         {| role := assistant; content := v |}]) in
  result.1 = Normal () ∧
  isLoading (pending result.2) = false ∧
  input (pending result.2) = [] ∧
  chats (pending result.2) !! i =
    Some (if bool_decide (title chat = NEW_CHAT)
          then with_title answered (generateChatTitle (input r))
          else answered).
Proof.
  intros r Huniq Hi Hact Hne Hin Hok result answered.
  destruct (send_answered_view r newId now rt (id chat) v
              Hact Hne Hin Hok) as (Hn & Hl & Hinp & _ & Hchats).
  split; [exact Hn|]. split; [exact Hl|]. split; [exact Hinp|].
  subst result answered. rewrite (Hchats i chat Hi).
  rewrite (getActiveChat_unique r i chat Huniq Hi Hact).
  by rewrite bool_decide_eq_true_2.
Qed.

(** X14: when the upload is rejected, the status is [error], the loading
    flag is off, no timer is scheduled (the status stays until the next
    upload), and the active thread receives the fixed upload error text as
    an assistant message, keeping its title. *)
Theorem handleFileChange_failure (r : View) (file : File) (rest : list File)
    (newId : jsstring) (now : Z) (rt : Runtime) (a e : jsstring) :
  activeChatId r = Some a → a ≠ [] →
  uploadDocument file = Rejected e →
  let result := handleFileChange r (file :: rest) newId now rt in
  result.1 = Normal () ∧
  uploadStatus (pending result.2) = error ∧
  uploadedFileName (pending result.2) = name file ∧
  isLoading (pending result.2) = false ∧
  timers result.2 = timers rt ∧
  ∀ i chat,
    chats (pending rt) !! i = Some chat → id chat = a →
    chats (pending result.2) !! i =
      Some (with_messages chat
              (messages chat ++
                 [{| role := assistant; content := UPLOAD_ERROR |}])).
Proof.
  intros Hact Hne Hup result. subst result. unfold handleFileChange.
  unfold appendMessage. rewrite Hact, (truthy_Some _ Hne). simpl negb.
  cbv iota. rewrite Hup. simpl.
  repeat (split; [reflexivity|]).
  intros i chat Hi Hid. rewrite list_lookup_fmap, Hi. simpl.
  by rewrite bool_decide_eq_true_2 by congruence.
Qed.

(** X15: a successful upload shows [success] and schedules one callback,
    5000 ms later; when it fires the status is [idle] again, and the
    threads, the file name shown and the other timers are as the upload
    left them. *)
Theorem upload_status_resets (file : File) (rest : list File)
    (newId newId' : jsstring) (now now' : Z) (rt : Runtime)
    (a v : jsstring) :
  pending rt = rendered rt →
  activeChatId (rendered rt) = Some a → a ≠ [] →
  uploadDocument file = Resolved v →
  let rt1 := dispatch (λ r, handleFileChange r (file :: rest) newId now) rt in
  let rt2 := fireTimer (length (timers rt)) newId' now' rt1 in
  timers rt1 = timers rt ++ [(ResetUploadStatus, 5000)] ∧
  uploadStatus (rendered rt1) = success ∧
  uploadStatus (rendered rt2) = idle ∧
  chats (rendered rt2) = chats (rendered rt1) ∧
  uploadedFileName (rendered rt2) = name file ∧
  timers rt2 = timers rt.
Proof.
  intros Hset Hact Hne Hup rt1 rt2.
  assert (Htm : timers rt1 = timers rt ++ [(ResetUploadStatus, 5000)]).
  { subst rt1. unfold dispatch, handleFileChange.
    rewrite Hact, (truthy_Some _ Hne). simpl negb. cbv iota.
    rewrite Hup. reflexivity. }
  assert (Hst : uploadStatus (rendered rt1) = success
                ∧ uploadedFileName (rendered rt1) = name file).
  { subst rt1. unfold dispatch, handleFileChange.
    rewrite Hact, (truthy_Some _ Hne). simpl negb. cbv iota.
    rewrite Hup. by split. }
  destruct Hst as [Hst Hname].
  split; [exact Htm|]. split; [exact Hst|].
  subst rt2. unfold fireTimer. rewrite Htm, list_lookup_middle by done.
  rewrite delete_middle, app_nil_r. simpl.
  repeat split. exact Hname.
Qed.

(** *** Uploading without an active thread *)



(** *** After a send *)

(** The thread list after a send whose call is rejected. *)
Lemma send_rejected_view (r : View) (newId : jsstring) (now : Z)
    (rt : Runtime) (a e : jsstring) :
  activeChatId r = Some a → a ≠ [] →
  trim (input r) ≠ [] →
  (if docGenMode r
   then generateDocument (input r) (or_null (Some (docType r)))
   else sendChatMessage (input r)) = Rejected e →
  ∀ i chat,
    chats (pending rt) !! i = Some chat → id chat = a →
    chats (pending (handleSend r newId now rt).2) !! i =
      Some (with_messages chat
              (messages chat ++
                 [{| role := user; content := input r |};
                  {| role := assistant; content := SEND_ERROR |}])).
Proof.
  intros Hact Hne Hinput Hfail. unfold handleSend.
  apply truthy_str_true in Hinput. rewrite Hinput.
  unfold appendMessage. rewrite Hact, (truthy_Some _ Hne). simpl negb.
  cbv iota.
  destruct (docGenMode r); rewrite Hfail; simpl;
    intros i chat Hi Hid;
    rewrite !list_lookup_fmap, Hi; simpl;
    rewrite (bool_decide_eq_true_2 (Some (id chat) = Some a)) by congruence;
    simpl;
    rewrite (bool_decide_eq_true_2 (Some (id chat) = Some a)) by congruence;
    unfold with_messages; simpl; by rewrite <- app_assoc.
Qed.

(** A send made for a thread leaves the active id and the ids of the list
    as they are, and hides the feature cards when the input is not blank. *)
Lemma handleSend_keeps (r : View) (newId : jsstring) (now : Z)
    (rt : Runtime) :
  truthy (activeChatId r) = true →
  let v' := pending (handleSend r newId now rt).2 in
  activeChatId v' = activeChatId (pending rt) ∧
  id <$> chats v' = id <$> chats (pending rt) ∧
  (trim (input r) ≠ [] → showFeatures v' = false).
Proof.
  intros Hact v'. subst v'.
  pose proof (touches_only_handleSend (pending rt) r newId now Hact rt
                (touches_only_init _ rt)) as Ht.
  split; [|split].
  - destruct (handleSend_cases r newId now rt) as [Hcr|Hin];
      [|by destruct Hin].
    destruct Hcr as [[t Hc] _]. apply Forall2_length in Ht. rewrite Hc in Ht. simpl in Ht. lia.
  - unfold touches_only in Ht.
    induction Ht as [|c0 c cs0 cs [Hid _] _ IH]; [done|].
    rewrite !fmap_cons. by rewrite Hid, IH.
  - intros Hin. apply truthy_str_true in Hin.
    unfold handleSend. rewrite Hin, Hact. simpl negb. cbv iota.
    unfold appendMessage. rewrite Hact. simpl negb. cbv iota.
    destruct (docGenMode r);
      [destruct (generateDocument (input r) (or_null (Some (docType r))))
         as [v|e]
      |destruct (sendChatMessage (input r)) as [v|e]];
      unfold mbind, mret, Handler_bind, Handler_ret, try_catch, await,
        setChats, setInput, setShowFeatures, setIsLoading, updateChatTitle,
        update;
      simpl; try reflexivity;
      (destruct (getActiveChat r) as [ac|];
       [destruct (bool_decide (title ac = NEW_CHAT))|]);
      simpl; destruct (textToSpeech v); reflexivity.
Qed.

(** *** Export *)

Lemma find_app_skip {A} (f : A → bool) (l k : list A) :
  Forall (λ x, f x = false) l → find f (l ++ k) = find f k.
Proof.
  induction 1 as [|x l Hx _ IH]; simpl; [done|]. by rewrite Hx.
Qed.

Lemma lastAssistant_last (before after : list Message) (m : Message) :
  role m = assistant → Forall (λ x, role x = user) after →
  lastAssistant (before ++ m :: after) = Some m.
Proof.
  intros Hm Hafter. unfold lastAssistant.
  rewrite rev_app_distr. simpl. rewrite <- !app_assoc.
  rewrite find_app_skip.
  - simpl. by rewrite bool_decide_eq_true_2.
  - apply Forall_forall. intros x Hx.
    apply list_elem_of_In, in_rev, list_elem_of_In in Hx.
    rewrite Forall_forall in Hafter.
    apply Hafter in Hx. by rewrite Hx.
Qed.

Lemma lastAssistant_None (ms : list Message) :
  lastAssistant ms = None ↔ Forall (λ m, role m = user) ms.
Proof.
  unfold lastAssistant. split.
  - intros Hnone. apply Forall_forall. intros m Hm.
    apply list_elem_of_In, in_rev in Hm.
    pose proof (find_none _ _ Hnone m Hm) as Hf.
    apply bool_decide_eq_false in Hf. by destruct (role m).
  - intros Hall. destruct (find _ _) as [m|] eqn:Hf; [|done].
    apply find_some in Hf as [Hin Hr]. apply in_rev, list_elem_of_In in Hin.
    rewrite Forall_forall in Hall. apply Hall in Hin.
    apply bool_decide_eq_true in Hr. congruence.
Qed.

(** X17: the Export button downloads the content of the last assistant
    message of the active thread, whatever user messages follow it. *)
Theorem exportDocument_last_assistant (r : View) (chat : Chat)
    (before after : list Message) (m : Message) :
  getActiveChat r = Some chat →
  messages chat = before ++ m :: after →
  role m = assistant → Forall (λ x, role x = user) after →
  exportDocument r = Some (content m).
Proof.
  intros Hchat Hms Hm Hafter. unfold exportDocument.
  by rewrite Hchat, Hms, (lastAssistant_last _ _ _ Hm Hafter).
Qed.

(** X18: the Export button downloads nothing exactly when no thread is
    found for the active id or the active thread holds no assistant
    message. *)
Theorem exportDocument_nothing (r : View) :
  exportDocument r = None ↔
  getActiveChat r = None ∨
  ∃ chat, getActiveChat r = Some chat ∧
          Forall (λ m, role m = user) (messages chat).
Proof.
  unfold exportDocument. destruct (getActiveChat r) as [chat|].
  - destruct (lastAssistant (messages chat)) as [m|] eqn:Hlast.
    + split; [done|]. intros [|(c & [= <-] & Hall)]; [done|].
      apply lastAssistant_None in Hall. congruence.
    + split; [|done]. intros _. right. exists chat.
      split; [done|]. by apply lastAssistant_None.
  - split; [by left|done].
Qed.

(** X19: after a send made on the current render for an existing thread,
    the message area is shown instead of the feature cards, and Export
    downloads the answer, or the fixed error text when the call was
    rejected. *)
Theorem export_after_send (newId : jsstring) (now : Z) (rt : Runtime)
    (i : nat) (chat : Chat) (o : Outcome) :
  let r := pending rt in
  ids_unique r → chats r !! i = Some chat →
  activeChatId r = Some (id chat) → id chat ≠ [] →
  trim (input r) ≠ [] →
  (if docGenMode r
   then generateDocument (input r) (or_null (Some (docType r)))
   else sendChatMessage (input r)) = o →
  let v' := pending (handleSend r newId now rt).2 in
  exportDocument v' =
    Some (match o with Resolved v => v | Rejected _ => SEND_ERROR end) ∧
  messagesVisible v' = true ∧ featuresVisible v' = false.
Proof.
  intros r Huniq Hi Hact Hne Hin Hcall v'.
  assert (Htruthy : truthy (activeChatId r) = true)
    by (rewrite Hact; by apply truthy_Some).
  destruct (handleSend_keeps r newId now rt Htruthy) as (Ha & Hids & Hshow).
  specialize (Hshow Hin). fold v' in Ha, Hids, Hshow.
  assert (Hchat' : ∃ chat' x,
            chats v' !! i = Some chat' ∧ id chat' = id chat ∧
            messages chat' =
              (messages chat ++ [{| role := user; content := input r |}])
              ++ [{| role := assistant; content := x |}] ∧
            x = match o with Resolved v => v | Rejected _ => SEND_ERROR end).
  { destruct o as [v|e].
    - destruct (send_answered_view r newId now rt (id chat) v
                  Hact Hne Hin Hcall) as (_ & _ & _ & _ & Hchats).
      specialize (Hchats i chat Hi).
      rewrite bool_decide_eq_true_2 in Hchats by done.
      eexists _, v. split; [exact Hchats|].
      destruct (match getActiveChat r with Some _ => _ | None => _ end);
        simpl; by rewrite <- app_assoc.
    - pose proof (send_rejected_view r newId now rt (id chat) e
                    Hact Hne Hin Hcall i chat Hi eq_refl) as Hchats.
      eexists _, SEND_ERROR. split; [exact Hchats|].
      simpl. by rewrite <- app_assoc. }
  destruct Hchat' as (chat' & x & Hi' & Hid' & Hms & ->).
  assert (Hget : getActiveChat v' = Some chat').
  { apply (getActiveChat_unique v' i chat').
    - unfold ids_unique. by rewrite Hids.
    - done.
    - rewrite Ha, Hid'. exact Hact. }
  split; [|split].
  - unfold exportDocument. rewrite Hget, Hms.
    rewrite lastAssistant_last; [done|done|by constructor].
  - unfold messagesVisible. by rewrite Hshow, Hget.
  - unfold featuresVisible. by rewrite Hshow, Hget.
Qed.

End MoreDispatcher.

(** ** The on-screen keyboard *)

Section Keyboard.

Lemma drop_two_prefixes {A} (l1 l2 l3 : list A) :
  drop (length l1 + length l2) (l1 ++ l2 ++ l3) = l3.
Proof.
  rewrite app_assoc, <- length_app. apply drop_app_length.
Qed.

(** X20: a key press replaces the selected part of the text by the key and
    puts the caret behind it; with nothing selected the key is inserted at
    the caret. *)
Theorem handleHindiKeyPress_replaces_selection (r : View)
    (before selected after button : jsstring) (rt : Runtime) :
  input r = before ++ selected ++ after →
  let result :=
    handleHindiKeyPress r
      (Some (length before, (length before + length selected)%nat))
      button rt in
  result.1 = Normal (Some (length before + length button)%nat) ∧
  input (pending result.2) = before ++ button ++ after.
Proof.
  intros Hin result. subst result. unfold handleHindiKeyPress. simpl.
  split; [reflexivity|].
  by rewrite Hin, take_app_length, drop_two_prefixes.
Qed.

(** X21: backspace does nothing with the caret at the start and nothing
    selected, or without an input element; with a selection it removes the
    selection; otherwise it removes the one code unit before the caret. *)
Theorem handleHindiBackspace_spec (r : View) (before selected after : jsstring)
    (c : N) (rt : Runtime) :
  handleHindiBackspace r (Some (0, 0)%nat) rt = (Normal None, rt) ∧
  handleHindiBackspace r None rt = (Normal None, rt) ∧
  (input r = before ++ selected ++ after → selected ≠ [] →
   let result :=
     handleHindiBackspace r
       (Some (length before, (length before + length selected)%nat)) rt in
   result.1 = Normal (Some (length before)) ∧
   input (pending result.2) = before ++ after) ∧
  (input r = before ++ c :: after →
   let result :=
     handleHindiBackspace r
       (Some (S (length before), S (length before))) rt in
   result.1 = Normal (Some (length before)) ∧
   input (pending result.2) = before ++ after).
Proof.
  split; [reflexivity|]. split; [reflexivity|]. split.
  - intros Hin Hsel result. subst result. unfold handleHindiBackspace.
    assert (Hlen : (0 < length selected)%nat)
      by (destruct selected; [done|simpl; lia]).
    assert (H0 : ((length before + length selected =? 0) = false)%nat)
      by (apply Nat.eqb_neq; lia).
    assert (Hne : ((length before =? length before + length selected)
                   = false)%nat) by (apply Nat.eqb_neq; lia).
    rewrite H0, andb_false_r, Hne. simpl.
    split; [reflexivity|].
    by rewrite Hin, take_app_length, drop_two_prefixes.
  - intros Hin result. subst result. unfold handleHindiBackspace.
    cbn [Nat.eqb andb]. rewrite Nat.eqb_refl. simpl.
    rewrite Nat.sub_0_r. split; [reflexivity|].
    rewrite Hin, take_app_length.
    change (before ++ c :: after) with (before ++ [c] ++ after).
    replace (S (length before)) with (length before + length [c])%nat
      by (simpl; lia).
    by rewrite drop_two_prefixes.
Qed.

Lemma one_unit_is_no_label (c : N) :
  bool_decide ([c] = js "SPACE") = false ∧
  bool_decide ([c] = js "BACKSPACE") = false.
Proof. split; by apply bool_decide_eq_false_2. Qed.

(** X22: on the keyboard, a key of one code unit followed by BACKSPACE gives
    the text and the caret back. *)
Theorem key_then_backspace (r : View) (p : nat) (c : N) (rt : Runtime) :
  (p ≤ length (input r))%nat →
  let typed := onKeyPress r (Some (p, p)) [c] rt in
  let erased :=
    onKeyPress (pending typed.2) (Some (S p, S p)) (js "BACKSPACE") typed.2 in
  typed.1 = Normal (Some (S p)) ∧
  erased.1 = Normal (Some p) ∧
  input (pending erased.2) = input r.
Proof.
  intros Hp typed erased. subst typed erased. unfold onKeyPress.
  destruct (one_unit_is_no_label c) as [-> ->].
  change (bool_decide (js "BACKSPACE" = js "SPACE")) with false.
  change (bool_decide (js "BACKSPACE" = js "BACKSPACE")) with true.
  cbv iota. unfold handleHindiKeyPress, handleHindiBackspace.
  cbn [Nat.eqb andb]. rewrite Nat.eqb_refl. simpl.
  rewrite Nat.sub_0_r, Nat.add_1_r.
  split; [reflexivity|]. split; [reflexivity|].
  assert (Hlen : length (take p (input r)) = p)
    by (rewrite length_take; lia).
  rewrite (take_app_length' _ _ p) by done.
  change (take p (input r) ++ c :: drop p (input r))
    with (take p (input r) ++ [c] ++ drop p (input r)).
  replace (S p) with (length (take p (input r)) + length [c])%nat
    by (rewrite Hlen; simpl; lia).
  rewrite drop_two_prefixes. apply take_drop.
Qed.

End Keyboard.

(** ** The theme *)

Section Theme.

Lemma initialTheme_nonempty (store : gmap (list N) (list N)) :
  initialTheme store ≠ [].
Proof.
  unfold initialTheme, or_null. destruct (store !! KEY_theme) as [[|c t]|];
    simpl; done.
Qed.

Lemma toggleTheme_next (p : ThemePage) :
  toggleTheme p =
    themeEffect (if bool_decide (theme p = LIGHT) then DARK else LIGHT)
                (themeStorage p).
Proof.
  unfold toggleTheme. case_bool_decide as Hl.
  - rewrite Hl. by rewrite decide_False.
  - by rewrite decide_False.
Qed.

Lemma initialTheme_stored (t : jsstring) (store : gmap (list N) (list N)) :
  t ≠ [] → initialTheme (<[KEY_theme := t]> store) = t.
Proof.
  intros Ht. unfold initialTheme, or_null. rewrite lookup_insert_eq.
  simpl. apply truthy_str_true in Ht. by rewrite Ht.
Qed.

(** X23: from the first render on and after any number of toggles, the
    store entry ['theme'] and the [data-theme] attribute hold the current
    theme, a reload would start with the same theme, and no other entry of
    the store has been touched. *)
Theorem theme_follows (store : gmap (list N) (list N)) (n : nat) :
  let p := toggles n (themeMount store) in
  themeStorage p !! KEY_theme = Some (theme p) ∧
  dataTheme p = Some (theme p) ∧
  initialTheme (themeStorage p) = theme p ∧
  ∀ k, k ≠ KEY_theme → themeStorage p !! k = store !! k.
Proof.
  intros p. subst p.
  assert (Hinv : ∀ p : ThemePage,
            (∃ t st, p = themeEffect t st ∧ t ≠ []
                     ∧ ∀ k, k ≠ KEY_theme → st !! k = store !! k) →
            themeStorage p !! KEY_theme = Some (theme p) ∧
            dataTheme p = Some (theme p) ∧
            initialTheme (themeStorage p) = theme p ∧
            ∀ k, k ≠ KEY_theme → themeStorage p !! k = store !! k).
  { intros p (t & st & -> & Ht & Hst). simpl.
    split; [apply lookup_insert_eq|]. split; [done|].
    split; [by apply initialTheme_stored|].
    intros k Hk. rewrite lookup_insert_ne by done. by apply Hst. }
  apply Hinv. induction n as [|n (t & st & Heq & Ht & Hst)].
  - exists (initialTheme store), store.
    split; [done|]. split; [apply initialTheme_nonempty|done].
  - simpl. rewrite toggleTheme_next, Heq. simpl.
    eexists _, _. split; [reflexivity|]. split.
    + by destruct (bool_decide _).
    + intros k Hk. rewrite lookup_insert_ne by done. by apply Hst.
Qed.

(** X24: a toggle always yields ["light"] or ["dark"]; any theme other than
    ["light"], also one found in the store that is neither, toggles to
    ["light"]; and two toggles from ["light"] or ["dark"] give the theme
    back. *)
Theorem toggleTheme_two_valued (p : ThemePage) :
  (theme (toggleTheme p) = LIGHT ∨ theme (toggleTheme p) = DARK) ∧
  (theme p ≠ LIGHT → theme (toggleTheme p) = LIGHT) ∧
  (theme p = LIGHT ∨ theme p = DARK →
   theme (toggleTheme (toggleTheme p)) = theme p).
Proof.
  rewrite !toggleTheme_next. simpl. split; [|split].
  - destruct (bool_decide _); auto.
  - intros Hne. by rewrite bool_decide_eq_false_2.
  - intros [-> | ->]; reflexivity.
Qed.

End Theme.

(** ** Reloading and deleting *)

Section Reload.
Context {api : Api} {codec : JsonCodec}.

Lemma runEvents_persisted (events : list Event) (rt : Runtime) :
  persisted rt → persisted (runEvents events rt).
Proof.
  revert rt. induction events as [|e events IH]; intros rt Hp; simpl;
    [done|].
  apply IH. by apply persisted_step.
Qed.

(** X25: a reload restores the session.  Whenever [JSON.parse] reads back
    what [JSON.stringify] wrote for the current thread list, the state
    rehydrated from the store after any sequence of events has the same
    threads and, when an active id is set, the same active id. *)
Theorem reload_restores (store0 : gmap (list N) (list N))
    (events : list Event) :
  let rt := runEvents events (mount store0) in
  let v := initialView (localStorage rt) in
  JSON_stringify (chats (rendered rt)) ≠ [] →
  JSON_parse (JSON_stringify (chats (rendered rt))) = chats (rendered rt) →
  chats v = chats (rendered rt) ∧
  ∀ a, activeChatId (rendered rt) = Some a → a ≠ [] →
       activeChatId v = Some a.
Proof.
  intros rt v Hne Hround. subst v.
  destruct (runEvents_persisted events _ (mount_persisted store0))
    as [Hc Ha]. fold rt in Hc, Ha.
  split.
  - simpl. unfold initialChats. rewrite Hc.
    apply truthy_str_true in Hne. by rewrite Hne.
  - intros a Hact Hna. simpl. unfold initialActiveChatId.
    rewrite (Ha a Hact Hna). unfold or_null. simpl.
    apply truthy_str_true in Hna. by rewrite Hna.
Qed.

Lemma commit_keeps_active_entry (rt : Runtime) :
  activeChatId (pending rt) = None →
  localStorage (commit rt) !! KEY_activeChatId =
    localStorage rt !! KEY_activeChatId.
Proof.
  intros Hnone. unfold commit. simpl.
  assert (Hk : (if decide (chats (rendered rt) = chats (pending rt))
                then localStorage rt
                else persistChats (pending rt) (localStorage rt))
               !! KEY_activeChatId = localStorage rt !! KEY_activeChatId).
  { case_decide; [done|].
    unfold persistChats. apply lookup_insert_ne, keys_distinct. }
  destruct (decide (activeChatId (rendered rt) = activeChatId (pending rt)));
    [exact Hk|].
  unfold persistActiveChatId. by rewrite Hnone.
Qed.

Lemma filter_all {A} (P : A → Prop) `{∀ x, Decision (P x)} (l : list A) :
  Forall P l → filter P l = l.
Proof.
  induction 1 as [|x l Hx _ IH]; [done|].
  by rewrite filter_cons_True, IH.
Qed.

(** X26: deleting the only thread and reloading brings back a page whose
    active id is the id of the deleted thread, with no thread in the list:
    the id stays in the store because an unset active id is not written. *)
Theorem reload_after_last_delete (newId : jsstring) (now : Z) :
  newId ≠ [] →
  JSON_parse (JSON_stringify []) = [] →
  let rt := runOps [createThread newId now; deleteThread newId] (mount ∅) in
  let v := initialView (localStorage rt) in
  chats (rendered rt) = [] ∧ activeChatId (rendered rt) = None ∧
  chats v = [] ∧ activeChatId v = Some newId.
Proof.
  intros Hne Hparse rt v. subst v rt. cbn [runOps foldl].
  set (rt1 := dispatch (opHandler (createThread newId now)) (mount ∅)).
  set (rt2 := dispatch (opHandler (deleteThread newId)) rt1).
  assert (Hp1 : persisted rt1) by apply dispatch_persisted, mount_persisted.
  assert (Hp2 : persisted rt2) by by apply dispatch_persisted.
  assert (Hview : chats (rendered rt2) = [] ∧ activeChatId (rendered rt2) = None).
  { subst rt2. unfold dispatch. rewrite rendered_commit. cbn [opHandler].
    destruct (handleDeleteChat_view (rendered rt1) newId rt1) as [-> ->].
    change (chats (pending rt1))
      with [{| id := newId; title := NEW_CHAT; messages := [];
               createdAt := now |}].
    change (chats (rendered rt1))
      with [{| id := newId; title := NEW_CHAT; messages := [];
               createdAt := now |}].
    change (activeChatId (rendered rt1)) with (Some newId).
    rewrite bool_decide_eq_true_2 by done.
    rewrite filter_cons_False by (intros Hid; by apply Hid).
    done. }
  destruct Hview as [Hchats Hact].
  assert (Hentry : localStorage rt2 !! KEY_activeChatId = Some newId).
  { subst rt2. unfold dispatch.
    destruct (opHandler_run (deleteThread newId) (rendered rt1) rt1)
      as [w Hw].
    unfold dispatch in Hact. rewrite Hw in Hact |- *. simpl in Hact.
    rewrite commit_keeps_active_entry by exact Hact. simpl.
    by apply Hp1. }
  split; [exact Hchats|]. split; [exact Hact|]. split.
  - change (chats (initialView (localStorage rt2)))
      with (initialChats (localStorage rt2)).
    unfold initialChats. destruct Hp2 as [-> _]. rewrite Hchats.
    destruct (truthy_str _); done.
  - change (activeChatId (initialView (localStorage rt2)))
      with (initialActiveChatId (localStorage rt2)).
    unfold initialActiveChatId. rewrite Hentry. unfold or_null.
    simpl. apply truthy_str_true in Hne. by rewrite Hne.
Qed.

Lemma view_eta (v : View) :
  {| input := input v; chats := chats v; activeChatId := activeChatId v;
     showFeatures := showFeatures v; isLoading := isLoading v;
     uploadStatus := uploadStatus v; uploadedFileName := uploadedFileName v;
     docGenMode := docGenMode v; docType := docType v |} = v.
Proof. by destruct v. Qed.

Lemma commit_settled (v : View) (tm : list (Timer * Z))
    (st : gmap (list N) (list N)) :
  commit {| rendered := v; pending := v; timers := tm; localStorage := st |}
  = {| rendered := v; pending := v; timers := tm; localStorage := st |}.
Proof. unfold commit. simpl. by rewrite !decide_True. Qed.

(** X27: deleting a thread a second time changes nothing: the threads, the
    active id, the rest of the state, the timers and the store are as the
    first deletion left them. *)
Theorem handleDeleteChat_idempotent (rt : Runtime) (cid : jsstring) :
  pending rt = rendered rt →
  dispatch (λ r, handleDeleteChat r cid)
    (dispatch (λ r, handleDeleteChat r cid) rt)
  = dispatch (λ r, handleDeleteChat r cid) rt.
Proof.
  intros Hset.
  set (rt1 := dispatch (λ r, handleDeleteChat r cid) rt).
  destruct (handleDeleteChat_view (rendered rt) cid rt) as [Hc Ha].
  assert (Hchats : chats (rendered rt1)
                   = filter (λ chat, id chat ≠ cid) (chats (pending rt)))
    by exact Hc.
  assert (Hall : Forall (λ chat, id chat ≠ cid) (chats (rendered rt1))).
  { rewrite Hchats. apply Forall_forall. intros chat Hin.
    by apply list_elem_of_filter in Hin as [Hid _]. }
  assert (Hact : activeChatId (rendered rt1) ≠ Some cid).
  { change (activeChatId (pending (handleDeleteChat (rendered rt) cid rt).2)
            ≠ Some cid).
    rewrite Ha. case_bool_decide as Hb.
    - destruct (or_null_cases
        (id <$> head (filter (λ chat, id chat ≠ cid) (chats (rendered rt)))))
        as [->|[-> _]]; [done|].
      destruct (head _) as [chat|] eqn:Hhead; [|done].
      apply head_Some_elem_of, list_elem_of_filter in Hhead as [Hid _].
      simpl. congruence.
    - by rewrite Hset. }
  assert (Hsettled : pending rt1 = rendered rt1) by done.
  clear Hc Ha Hchats. clearbody rt1.
  destruct rt1 as [v1 p1 tm st]. simpl in *. subst p1.
  unfold dispatch, handleDeleteChat. simpl.
  rewrite (bool_decide_eq_false_2 _ Hact). simpl.
  by rewrite (filter_all _ _ Hall), view_eta, commit_settled.
Qed.

End Reload.

(** ** Closed instances *)

#[local] Existing Instance idsCodec.

Lemma store_follows_state_witness :
  let rt := runOps (codec := idsCodec)
              [createThread (js "t1") 0; createThread (js "t2") 1;
               selectThread (js "t1")] (mount ∅) in
  let rt' := dispatch (codec := idsCodec) (opHandler (selectThread [])) rt in
  localStorage rt !! KEY_activeChatId = Some (js "t1") ∧
  activeChatId (rendered rt') = Some [] ∧
  localStorage rt' !! KEY_activeChatId = Some (js "t1") ∧
  chats (initialView (codec := idsCodec) ∅) = [] ∧
  activeChatId (initialView (codec := idsCodec) ∅) = None.
Proof.
  intros rt rt'.
  pose proof (store_follows_state (codec := idsCodec) ∅
    [createThread (js "t1") 0; createThread (js "t2") 1;
     selectThread (js "t1")]) as (_ & Ha & Hkeep & Hinit).
  assert (Hstored : localStorage rt !! KEY_activeChatId = Some (js "t1"))
    by (apply Ha; [reflexivity|discriminate]).
  split; [exact Hstored|]. split; [reflexivity|]. split.
  - exact (eq_trans (Hkeep (selectThread []) eq_refl) Hstored).
  - apply Hinit; left; apply lookup_empty.
Defined.

(** C2, as stated, fails: deleting the only thread leaves no thread active,
    yet the store still holds the id of the deleted thread, and a restart
    would rehydrate that id. *)
Lemma cleared_active_thread_not_persisted :
  let rt := runOps (codec := idsCodec)
              [createThread (js "t1") 0; deleteThread (js "t1")] (mount ∅) in
  chats (rendered rt) = [] ∧
  activeChatId (rendered rt) = None ∧
  localStorage rt !! KEY_activeChatId = Some (js "t1") ∧
  initialActiveChatId (localStorage rt) = Some (js "t1").
Proof. vm_compute. done. Qed.

Lemma active_thread_exists_witness :
  let rt := runOps (codec := idsCodec)
              [createThread (js "t1") 0; createThread (js "t2") 1;
               deleteThread (js "t1")] (mount ∅) in
  let created := rendered (dispatch (codec := idsCodec)
                             (opHandler (createThread (js "t3") 2)) rt) in
  let deleted := rendered (dispatch (codec := idsCodec)
                             (opHandler (deleteThread (js "t2"))) rt) in
  (activeChatId (rendered rt) = None ∨
   ∃ chat, chat ∈ chats (rendered rt) ∧
           activeChatId (rendered rt) = Some (id chat)) ∧
  activeChatId created = Some (js "t3") ∧
  (id <$> chats created) = [js "t3"; js "t2"] ∧
  chats deleted = [] ∧ activeChatId deleted = None.
Proof.
  intros rt created deleted.
  pose proof (active_thread_exists (codec := idsCodec)
                [createThread (js "t1") 0; createThread (js "t2") 1;
                 deleteThread (js "t1")] eq_refl) as Hspec.
  cbv zeta in Hspec. destruct Hspec as (Hinv & Hcreate & Hdelete).
  destruct (Hcreate (js "t3") 2) as [Hc Ha].
  destruct (Hdelete (js "t2")) as (Hd & Hptr & _).
  assert (Hids : Forall (λ chat, id chat ≠ []) (chats (rendered rt)))
    by (repeat constructor; discriminate).
  split; [exact Hinv|]. split; [exact Ha|].
  split; [exact (f_equal (fmap id) Hc)|].
  split; [exact Hd|].
  exact (eq_trans (Hptr eq_refl Hids) (f_equal (λ cs, id <$> head cs) Hd)).
Defined.

(** C7, as stated, fails: selecting an id that no thread has is not a no-op;
    the pointer is set to that id. *)
Lemma handleSelectChat_unknown_id :
  let rt := mount (codec := idsCodec) ∅ in
  let rt' := dispatch (codec := idsCodec)
               (λ _, handleSelectChat (js "ghost")) rt in
  chats (rendered rt) = [] ∧
  activeChatId (rendered rt) = None ∧
  chats (rendered rt') = [] ∧
  activeChatId (rendered rt') = Some (js "ghost").
Proof. vm_compute. done. Qed.

Lemma handleDeleteChat_spec_witness :
  let rt := runOps (codec := idsCodec)
              [createThread (js "t1") 0; createThread (js "t2") 1] (mount ∅) in
  let after := rendered (dispatch (codec := idsCodec)
                           (λ r, handleDeleteChat r (js "t2")) rt) in
  activeChatId after = Some (js "t1") ∧ (id <$> chats after) = [js "t1"].
Proof.
  intros rt after.
  assert (Hset : pending rt = rendered rt) by reflexivity.
  assert (Hids : Forall (λ chat, id chat ≠ []) (chats (rendered rt)))
    by (repeat constructor; discriminate).
  pose proof (handleDeleteChat_spec (codec := idsCodec) rt (js "t2")
                Hset Hids) as Hspec.
  cbv zeta in Hspec. destruct Hspec as (_ & Hc & _ & Ha & _).
  subst after. split.
  - rewrite (Ha eq_refl), Hc. reflexivity.
  - rewrite Hc. reflexivity.
Defined.

Lemma handleSend_failure_witness :
  let chat0 := {| id := js "t1"; title := NEW_CHAT; messages := [];
                  createdAt := 0 |} in
  let r := {| input := js "hi"; chats := [chat0];
              activeChatId := Some (js "t1"); showFeatures := true;
              isLoading := false; uploadStatus := idle;
              uploadedFileName := []; docGenMode := false; docType := [] |} in
  let rt := {| rendered := r; pending := r; timers := [];
               localStorage := ∅ |} in
  let result := handleSend (api := backendDown) r (js "t2") 1 rt in
  result.1 = Normal () ∧
  isLoading (pending result.2) = false ∧
  chats (pending result.2) !! 0%nat =
    Some {| id := js "t1"; title := NEW_CHAT;
            messages := [{| role := user; content := js "hi" |};
                         {| role := assistant; content := SEND_ERROR |}];
            createdAt := 0 |}.
Proof.
  intros chat0 r rt result.
  assert (Hne : js "t1" ≠ []) by discriminate.
  assert (Hin : trim (input r) ≠ []) by discriminate.
  pose proof (handleSend_failure (api := backendDown) r (js "t2") 1 rt
                (js "t1") (js "Network Error") eq_refl Hne Hin eq_refl)
    as Hspec.
  cbv zeta in Hspec. destruct Hspec as (Hnormal & Hload & Hchats).
  split; [exact Hnormal|]. split; [exact Hload|].
  exact (Hchats 0%nat chat0 eq_refl).
Defined.

Lemma handleFileChange_success_witness :
  let chat0 := {| id := js "t1"; title := js "Lease dispute";
                  messages := []; createdAt := 0 |} in
  let r := {| input := []; chats := [chat0];
              activeChatId := Some (js "t1"); showFeatures := true;
              isLoading := false; uploadStatus := idle;
              uploadedFileName := []; docGenMode := false; docType := [] |} in
  let rt := {| rendered := r; pending := r; timers := [];
               localStorage := ∅ |} in
  let result := handleFileChange (api := backendUp) r
                  [{| name := js "contract.pdf" |}] (js "t2") 1 rt in
  chats (pending result.2) !! 0%nat =
    Some {| id := js "t1"; title := js "contract"; messages := [];
            createdAt := 0 |}.
Proof.
  intros chat0 r rt result.
  assert (Hne : js "t1" ≠ []) by discriminate.
  pose proof (handleFileChange_success (api := backendUp) r
                {| name := js "contract.pdf" |} [] (js "t2") 1 rt
                (js "t1") (js "indexed") eq_refl Hne eq_refl) as Hspec.
  cbv zeta in Hspec. destruct Hspec as (_ & _ & _ & Htitle & _).
  exact (Htitle 0%nat chat0 eq_refl eq_refl).
Defined.

(** With a thread active and the backend answering, one send appends the
    user's message and then the answer, and titles the thread from the
    text. *)
Example send_with_active_chat :
  let rt := dispatch (typeText (js "hi"))
              (dispatch (λ _, handleNewChat (js "t1") 0) (mount ∅)) in
  let rt' := dispatch (λ r, handleSend (api := backendUp) r (js "t2") 1)
               rt in
  chats (rendered rt') =
    [{| id := js "t1"; title := js "hi";
        messages := [{| role := user; content := js "hi" |};
                     {| role := assistant;
                        content := js "Please consult the Act." |}];
        createdAt := 0 |}] ∧
  isLoading (rendered rt') = false ∧
  timers rt' = [].
Proof. vm_compute. done. Qed.

(** The same send with no thread active, after three runs of the retry. *)
Example retry_three_times :
  let rt0 := dispatch (typeText (js "hi")) (mount ∅) in
  let rt := retries (api := backendUp) 3
              (λ k, js "r" ++ [48 + N.of_nat k]%N) (λ k, Z.of_nat k)
              (dispatch (λ r, handleSend (api := backendUp) r (js "t1") 0)
                 rt0) in
  (id <$> chats (rendered rt)) = [js "r2"; js "r1"; js "r0"; js "t1"] ∧
  (messages <$> chats (rendered rt)) = [[]; []; []; []] ∧
  length (timers rt) = 1%nat.
Proof. vm_compute. done. Qed.

(** *** Instances of the further properties *)

Ltac decide_closed :=
  match goal with
  | |- ?P => apply (bool_decide_eq_true_1 P); vm_compute; reflexivity
  end.

Lemma generateChatTitle_length_witness :
  (3 < length (spec_words (js "how do I file a consumer complaint")))%nat ∧
  (length (generateChatTitle (js "how do I file a consumer complaint")) ≤ 33)%nat.
Proof.
  assert (Hlen : (3 < length (spec_words
                    (js "how do I file a consumer complaint")))%nat)
    by (vm_compute; lia).
  split; [exact Hlen|].
  exact (generateChatTitle_length _ Hlen).
Defined.

Lemma generateChatTitle_nonempty_witness :
  trim (js " bail ") ≠ [] ∧ generateChatTitle (js " bail ") ≠ [].
Proof.
  assert (Htrim : trim (js " bail ") ≠ []) by (vm_compute; discriminate).
  split; [exact Htrim|].
  exact (generateChatTitle_nonempty _ Htrim).
Defined.

Lemma messages_append_only_witness :
  let e := StoreOp (appendMessageOp user (js "Q2")) in
  let chat' := with_messages sampleChat [{| role := user; content := js "Q2" |}] in
  (messages chat' = [] ∧ title chat' = NEW_CHAT ∧
   eventNewId e = Some (id chat')) ∨
  ∃ chat, chat ∈ chats (rendered sampleRuntime) ∧ continues chat chat'.
Proof.
  intros e chat'.
  apply (messages_append_only (api := backendUp) e sampleRuntime chat'
           eq_refl).
  apply list_elem_of_here.
Defined.

Lemma ids_stay_unique_witness :
  ids_unique (rendered sampleRuntime) ∧
  ids_unique
    (rendered (step (api := backendUp)
                 (StoreOp (createThread (js "t2") 2)) sampleRuntime)).
Proof.
  assert (Huniq : ids_unique (rendered sampleRuntime))
    by (unfold ids_unique; decide_closed).
  split; [exact Huniq|].
  apply (ids_stay_unique (api := backendUp)
           (StoreOp (createThread (js "t2") 2)) sampleRuntime eq_refl Huniq).
  intros newId [= <-]. decide_closed.
Defined.

Lemma active_thread_kept_witness :
  let v' := rendered (step (api := backendUp)
                        (StoreOp (selectThread (js "t0"))) sampleRuntime) in
  activeChatId v' = None ∨
  ∃ chat, chat ∈ chats v' ∧ activeChatId v' = Some (id chat).
Proof.
  apply (active_thread_kept (api := backendUp)
           (StoreOp (selectThread (js "t0"))) sampleRuntime eq_refl).
  - right. exists sampleChat. split; [apply list_elem_of_here|reflexivity].
  - intros cid [= <-]. decide_closed.
Defined.

Lemma handleSend_blank_witness :
  let r := {| input := js "   "; chats := []; activeChatId := None;
              showFeatures := true; isLoading := false;
              uploadStatus := idle; uploadedFileName := [];
              docGenMode := false; docType := [] |} in
  handleSend (api := backendUp) r (js "t2") 2 sampleRuntime
  = (Normal (), sampleRuntime).
Proof.
  intros r.
  apply (handleSend_blank (api := backendUp) r (js "t2") 2 sampleRuntime).
  reflexivity.
Defined.

Lemma handleSend_frame_witness :
  chats (pending (handleSend (api := backendUp) sampleView (js "t2") 2
                    sampleRuntime).2) !! 1%nat = Some otherChat.
Proof.
  apply (proj2 (handleSend_frame (api := backendUp) sampleView (js "t2") 2
                  sampleRuntime eq_refl) 1%nat otherChat eq_refl).
  intros Heq. vm_compute in Heq. discriminate Heq.
Defined.

Lemma handleFileChange_frame_witness :
  chats (pending (handleFileChange (api := backendUp) sampleView
                    [{| name := js "contract.pdf" |}] (js "t2") 2
                    sampleRuntime).2) !! 1%nat = Some otherChat.
Proof.
  apply (proj2 (handleFileChange_frame (api := backendUp) sampleView
                  [{| name := js "contract.pdf" |}] (js "t2") 2
                  sampleRuntime eq_refl) 1%nat otherChat eq_refl).
  intros Heq. vm_compute in Heq. discriminate Heq.
Defined.

Lemma handleSend_no_such_thread_witness :
  chats (pending (handleSend (api := backendUp) strayView (js "t2") 2
                    strayRuntime).2) = [otherChat].
Proof.
  apply (handleSend_no_such_thread (api := backendUp) strayView (js "t2") 2
           strayRuntime eq_refl).
  intros chat Hin. apply list_elem_of_singleton in Hin. subst chat.
  intros Heq. vm_compute in Heq. discriminate Heq.
Defined.

Lemma handleSend_success_witness :
  chats (pending (handleSend (api := backendUp) sampleView (js "t2") 2
                    sampleRuntime).2) !! 0%nat =
    Some {| id := js "t1"; title := js "hi";
            messages := [{| role := user; content := js "hi" |};
                         {| role := assistant;
                            content := js "Please consult the Act." |}];
            createdAt := 1 |}.
Proof.
  assert (Huniq : ids_unique (pending sampleRuntime))
    by (unfold ids_unique; decide_closed).
  assert (Hne : id sampleChat ≠ []) by discriminate.
  assert (Hin : trim (input (pending sampleRuntime)) ≠ [])
    by (vm_compute; discriminate).
  pose proof (handleSend_success (api := backendUp) (js "t2") 2
                sampleRuntime 0%nat sampleChat (js "Please consult the Act.")
                Huniq eq_refl eq_refl Hne Hin eq_refl) as Hspec.
  cbv zeta in Hspec. destruct Hspec as (_ & _ & _ & Hchat).
  exact Hchat.
Defined.

Lemma handleFileChange_failure_witness :
  let result := handleFileChange (api := backendDown) sampleView
                  [{| name := js "contract.pdf" |}] (js "t2") 2
                  sampleRuntime in
  uploadStatus (pending result.2) = error ∧
  chats (pending result.2) !! 0%nat =
    Some {| id := js "t1"; title := NEW_CHAT;
            messages := [{| role := assistant; content := UPLOAD_ERROR |}];
            createdAt := 1 |}.
Proof.
  intros result.
  assert (Hne : js "t1" ≠ []) by discriminate.
  pose proof (handleFileChange_failure (api := backendDown) sampleView
                {| name := js "contract.pdf" |} [] (js "t2") 2 sampleRuntime
                (js "t1") (js "Network Error") eq_refl Hne eq_refl) as Hspec.
  cbv zeta in Hspec. destruct Hspec as (_ & Hst & _ & _ & _ & Hchat).
  split; [exact Hst|]. exact (Hchat 0%nat sampleChat eq_refl eq_refl).
Defined.

Lemma upload_status_resets_witness :
  let rt1 := dispatch (λ r, handleFileChange (api := backendUp) r
                              [{| name := js "contract.pdf" |}] (js "t2") 2)
               sampleRuntime in
  let rt2 := fireTimer (api := backendUp) 0 (js "t3") 3 rt1 in
  uploadStatus (rendered rt1) = success ∧ uploadStatus (rendered rt2) = idle.
Proof.
  intros rt1 rt2.
  assert (Hne : js "t1" ≠ []) by discriminate.
  pose proof (upload_status_resets (api := backendUp)
                {| name := js "contract.pdf" |} [] (js "t2") (js "t3") 2 3
                sampleRuntime (js "t1") (js "indexed")
                eq_refl eq_refl Hne eq_refl) as Hspec.
  cbv zeta in Hspec. destruct Hspec as (_ & Hs & Hi & _).
  split; [exact Hs|exact Hi].
Defined.

Lemma exportDocument_last_assistant_witness :
  let r := {| input := []; chats := [sampleChat; otherChat];
              activeChatId := Some (js "t0"); showFeatures := false;
              isLoading := false; uploadStatus := idle;
              uploadedFileName := []; docGenMode := false; docType := [] |} in
  exportDocument r = Some (js "A").
Proof.
  intros r.
  apply (exportDocument_last_assistant r otherChat
           [{| role := user; content := js "Q" |}]
           [{| role := user; content := js "thanks" |}]
           {| role := assistant; content := js "A" |});
    [reflexivity|reflexivity|reflexivity|].
  repeat constructor.
Defined.

Lemma export_after_send_witness :
  let v' := pending (handleSend (api := backendDown) sampleView (js "t2") 2
                       sampleRuntime).2 in
  exportDocument v' = Some SEND_ERROR ∧
  messagesVisible v' = true ∧ featuresVisible v' = false.
Proof.
  assert (Huniq : ids_unique (pending sampleRuntime))
    by (unfold ids_unique; decide_closed).
  assert (Hne : id sampleChat ≠ []) by discriminate.
  assert (Hin : trim (input (pending sampleRuntime)) ≠ [])
    by (vm_compute; discriminate).
  exact (export_after_send (api := backendDown) (js "t2") 2 sampleRuntime
           0%nat sampleChat (Rejected (js "Network Error"))
           Huniq eq_refl eq_refl Hne Hin eq_refl).
Defined.

Lemma handleHindiKeyPress_replaces_selection_witness :
  let r := {| input := js "abcd"; chats := []; activeChatId := None;
              showFeatures := true; isLoading := false;
              uploadStatus := idle; uploadedFileName := [];
              docGenMode := false; docType := [] |} in
  let result := handleHindiKeyPress r (Some (1, 3)%nat) (js "X")
                  sampleRuntime in
  result.1 = Normal (Some 2%nat) ∧ input (pending result.2) = js "aXd".
Proof.
  intros r.
  exact (handleHindiKeyPress_replaces_selection r (js "a") (js "bc") (js "d")
           (js "X") sampleRuntime eq_refl).
Defined.

Lemma key_then_backspace_witness :
  let typed := onKeyPress sampleView (Some (1, 1)%nat) [2325%N]
                 sampleRuntime in
  let erased := onKeyPress (pending typed.2) (Some (2, 2)%nat)
                  (js "BACKSPACE") typed.2 in
  typed.1 = Normal (Some 2%nat) ∧ erased.1 = Normal (Some 1%nat) ∧
  input (pending erased.2) = js "hi".
Proof.
  assert (Hp : (1 ≤ length (input sampleView))%nat) by (vm_compute; lia).
  exact (key_then_backspace sampleView 1 2325%N sampleRuntime Hp).
Defined.

Lemma reload_restores_witness :
  let rt := runEvents (api := backendUp) [Typed (js "hi")]
              (mount {[ KEY_activeChatId := js "t1" ]}) in
  let v := initialView (localStorage rt) in
  chats v = chats (rendered rt) ∧ activeChatId v = Some (js "t1").
Proof.
  intros rt v.
  assert (Hne : JSON_stringify (chats (rendered rt)) ≠ [])
    by (vm_compute; discriminate).
  pose proof (reload_restores (api := backendUp)
                {[ KEY_activeChatId := js "t1" ]} [Typed (js "hi")]
                Hne eq_refl) as [Hc Ha].
  split; [exact Hc|].
  apply Ha; [vm_compute; reflexivity|discriminate].
Defined.

Lemma reload_after_last_delete_witness :
  let rt := runOps [createThread (js "t1") 0; deleteThread (js "t1")]
              (mount ∅) in
  let v := initialView (localStorage rt) in
  chats (rendered rt) = [] ∧ activeChatId (rendered rt) = None ∧
  chats v = [] ∧ activeChatId v = Some (js "t1").
Proof.
  assert (Hne : js "t1" ≠ []) by discriminate.
  exact (reload_after_last_delete (js "t1") 0 Hne eq_refl).
Defined.

Lemma handleDeleteChat_idempotent_witness :
  dispatch (λ r, handleDeleteChat r (js "t1"))
    (dispatch (λ r, handleDeleteChat r (js "t1")) sampleRuntime)
  = dispatch (λ r, handleDeleteChat r (js "t1")) sampleRuntime.
Proof.
  exact (handleDeleteChat_idempotent sampleRuntime (js "t1") eq_refl).
Defined.
